(** * Contact-form pipeline of [netlify/functions/contact.js]

    A shallow embedding of the contact-form function: the input
    normalizer, the recipient resolver, the formatter and the handler,
    followed by the properties the specification states about them.

    Modelling conventions.
    - A JavaScript string is a Rocq [string]; a character is one code
      unit in the range 0..255 (Latin-1).  [toLowerCase], [trim] and the
      regular-expression class [\s] are the ECMAScript ones restricted to
      that range.
    - A JavaScript value is a [jsval]; a number is an integer, [NaN] or an
      infinity.
    - Collaborators living outside this file of the repository
      ([isMailConfigured], [listTeamMemberEmails], [sendMail]), the
      environment [process.env], the clock, [console.error] and
      [JSON.parse] are taken from a [world]; every interaction with them is
      recorded in a trace of [event]s. *)

From Stdlib Require Import ZArith NArith Ascii String.
From stdpp Require Import base option list strings gmap.

Local Open Scope Z_scope.

Set Warnings "-clear-no-such-hyp".

(** ** Characters and strings *)

Module Char.

Definition code (c : ascii) : N := N_of_ascii c.

(** ECMAScript [WhiteSpace] and [LineTerminator] code points below 256:
    TAB, LF, VT, FF, CR, SP and NBSP.  This is the set stripped by
    [String.prototype.trim] and matched by [\s]. *)
Definition is_ws (c : ascii) : bool :=
  let n := code c in
  ((9 <=? n) && (n <=? 13) || (n =? 32) || (n =? 160))%N.

(** [toLowerCase] on one Latin-1 code unit: A-Z and the accented
    capitals U+00C0..U+00DE (U+00D7, the multiplication sign, apart). *)
Definition lower (c : ascii) : ascii :=
  let n := code c in
  if ((65 <=? n) && (n <=? 90)
      || (192 <=? n) && (n <=? 222) && negb (n =? 215))%N
  then ascii_of_N (n + 32) else c.

(** the double-quote character *)
Definition dquote : ascii := ascii_of_N 34.

End Char.

Module Str.

Definition is_empty (s : string) : bool :=
  match s with EmptyString => true | String _ _ => false end.

(** [Boolean(s)] for a string. *)
Definition nonempty (s : string) : bool := negb (is_empty s).

Fixpoint map (f : ascii -> ascii) (s : string) : string :=
  match s with
  | EmptyString => EmptyString
  | String c r => String (f c) (map f r)
  end.

Fixpoint forallb (p : ascii -> bool) (s : string) : bool :=
  match s with
  | EmptyString => true
  | String c r => p c && forallb p r
  end.

Fixpoint count (p : ascii -> bool) (s : string) : nat :=
  match s with
  | EmptyString => O
  | String c r => ((if p c then 1 else 0) + count p r)%nat
  end.

Definition toLowerCase (s : string) : string := map Char.lower s.

Fixpoint trimStart (s : string) : string :=
  match s with
  | EmptyString => EmptyString
  | String c r => if Char.is_ws c then trimStart r else s
  end.

Fixpoint trimEnd (s : string) : string :=
  match s with
  | EmptyString => EmptyString
  | String c r =>
      match trimEnd r with
      | EmptyString => if Char.is_ws c then EmptyString else String c EmptyString
      | t => String c t
      end
  end.

Definition trim (s : string) : string := trimEnd (trimStart s).

(** [s.replace(/c/g, by)] for a one-character pattern [c]. *)
Fixpoint replaceAll (c : ascii) (by_ : string) (s : string) : string :=
  match s with
  | EmptyString => EmptyString
  | String d r =>
      if Ascii.eqb d c then by_ +:+ replaceAll c by_ r
      else String d (replaceAll c by_ r)
  end.

(** [parts.join(sep)] on an array of strings. *)
Definition join (sep : string) (parts : list string) : string :=
  String.concat sep parts.

(** [s.startsWith(p)]. *)
Definition startsWith (s p : string) : bool := String.prefix p s.

(** [s.includes(p)]. *)
Fixpoint includes (s p : string) : bool :=
  String.prefix p s ||
  match s with
  | EmptyString => false
  | String _ r => includes r p
  end.

(** [s.split(/[...]+/)] for a character class [sep]: the pieces between
    the maximal runs of separator characters.  A run at the very start
    or end leaves an empty first or last piece, as in ECMAScript. *)
Fixpoint split_go (sep : ascii -> bool) (in_run : bool) (cur : string)
    (s : string) : list string :=
  match s with
  | EmptyString => [String.rev cur]
  | String c r =>
      if sep c then
        if in_run then split_go sep true EmptyString r
        else String.rev cur :: split_go sep true EmptyString r
      else split_go sep false (String c cur) r
  end.

Definition split (sep : ascii -> bool) (s : string) : list string :=
  split_go sep false EmptyString s.

End Str.

(** ** JavaScript values *)

Inductive number :=
| Int (z : Z)
| NaN
| Infinity (negative : bool).

(** [n >= k] for an integer literal [k]. *)
Definition number_ge (n : number) (k : Z) : bool :=
  match n with
  | Int z => k <=? z
  | NaN => false
  | Infinity negative => negb negative
  end.

#[warnings="-register-all"]
Inductive jsval :=
| JUndefined
| JNull
| JBool (b : bool)
| JNum (n : number)
| JStr (s : string)
| JArr (items : list jsval)
| JObj (fields : list (string * jsval)).

(** [Boolean(v)]. *)
Definition truthy (v : jsval) : bool :=
  match v with
  | JUndefined | JNull => false
  | JBool b => b
  | JNum (Int z) => negb (z =? 0)
  | JNum NaN => false
  | JNum (Infinity _) => true
  | JStr s => Str.nonempty s
  | JArr _ | JObj _ => true
  end.

(** [a || b]. *)
Definition js_or (a b : jsval) : jsval := if truthy a then a else b.

Fixpoint assoc (k : string) (fields : list (string * jsval)) : jsval :=
  match fields with
  | [] => JUndefined
  | (k', v) :: rest => if String.eqb k' k then v else assoc k rest
  end.

(** [v?.k] for a property name [k] that no built-in prototype defines
    (such are all the names this program reads): the own field of an
    object, [undefined] on everything else. *)
Definition opt_get (v : jsval) (k : string) : jsval :=
  match v with
  | JObj fields => assoc k fields
  | _ => JUndefined
  end.

Definition is_nullish (v : jsval) : bool :=
  match v with JUndefined | JNull => true | _ => false end.

(** ** Input normalizer *)

Definition normalizeString (value : jsval) : string :=
  match value with
  | JStr s => Str.trim s
  | _ => EmptyString
  end.

Definition normalizeEmail (value : jsval) : string :=
  match value with
  | JStr s => Str.toLowerCase (Str.trim s)
  | _ => EmptyString
  end.

(** [escapeHtml] is only ever applied to strings; on a string
    [String(value || the empty string)] is the string itself. *)
Definition escapeHtml (value : string) : string :=
  Str.replaceAll "'" "&#39;"
    (Str.replaceAll Char.dquote "&quot;"
      (Str.replaceAll ">" "&gt;"
        (Str.replaceAll "<" "&lt;"
          (Str.replaceAll "&" "&amp;" value)))).

(** ** Regular expressions

    The patterns of this program use character classes, concatenation and
    [+] only, so [RegExp.prototype.test] on a pattern anchored by [^] and
    [$] decides membership of the whole string in a regular language.  It
    is computed here with derivatives. *)

Module Regex.

Inductive regex :=
| Void
| Eps
| Class (p : ascii -> bool)
| Cat (r1 r2 : regex)
| Alt (r1 r2 : regex)
| Star (r : regex).

(** [r+] *)
Definition Plus (r : regex) : regex := Cat r (Star r).

(** a literal character *)
Definition Chr (c : ascii) : regex := Class (Ascii.eqb c).

Fixpoint nullable (r : regex) : bool :=
  match r with
  | Void => false
  | Eps => true
  | Class _ => false
  | Cat r1 r2 => nullable r1 && nullable r2
  | Alt r1 r2 => nullable r1 || nullable r2
  | Star _ => true
  end.

Fixpoint deriv (c : ascii) (r : regex) : regex :=
  match r with
  | Void => Void
  | Eps => Void
  | Class p => if p c then Eps else Void
  | Cat r1 r2 =>
      if nullable r1 then Alt (Cat (deriv c r1) r2) (deriv c r2)
      else Cat (deriv c r1) r2
  | Alt r1 r2 => Alt (deriv c r1) (deriv c r2)
  | Star r1 => Cat (deriv c r1) (Star r1)
  end.

(** [/^r$/.test(s)] *)
Fixpoint test (r : regex) (s : string) : bool :=
  match s with
  | EmptyString => nullable r
  | String c s' => test (deriv c r) s'
  end.

(** The language of a pattern, for reasoning. *)
Inductive lang : regex -> string -> Prop :=
| lang_eps : lang Eps EmptyString
| lang_class p c : p c = true -> lang (Class p) (String c EmptyString)
| lang_cat r1 r2 s1 s2 :
    lang r1 s1 -> lang r2 s2 -> lang (Cat r1 r2) (s1 +:+ s2)
| lang_alt_l r1 r2 s : lang r1 s -> lang (Alt r1 r2) s
| lang_alt_r r1 r2 s : lang r2 s -> lang (Alt r1 r2) s
| lang_star_nil r : lang (Star r) EmptyString
| lang_star_app r s1 s2 :
    lang r s1 -> lang (Star r) s2 -> lang (Star r) (s1 +:+ s2).

End Regex.

(** [[^\s@]] *)
Definition not_ws_at (c : ascii) : bool :=
  negb (Char.is_ws c || Ascii.eqb c "@").

(** [/^[^\s@]+@[^\s@]+\.[^\s@]+$/] *)
Definition email_pattern : Regex.regex :=
  Regex.Cat (Regex.Plus (Regex.Class not_ws_at))
    (Regex.Cat (Regex.Chr "@")
      (Regex.Cat (Regex.Plus (Regex.Class not_ws_at))
        (Regex.Cat (Regex.Chr ".")
          (Regex.Plus (Regex.Class not_ws_at))))).

Definition isLikelyEmail (value : jsval) : bool :=
  match value with
  | JStr s =>
      let normalized := Str.trim s in
      if Str.is_empty normalized then false
      else Regex.test email_pattern normalized
  | _ => false
  end.

(** ** Recipient resolver: the pure part *)

(** What [parseRecipientList] is given: a [process.env] entry is a string
    or [undefined]; the function also accepts an array. *)
Inductive setting :=
| Unset
| Text (s : string)
| Items (xs : list jsval).

(** [[,;\s]] *)
Definition is_separator (c : ascii) : bool :=
  Ascii.eqb c "," || Ascii.eqb c ";" || Char.is_ws c.

Definition parseRecipientList (value : setting) : list string :=
  match value with
  | Unset => []
  | Text EmptyString => []
  | Items xs => filter (fun e => Is_true (Str.nonempty e)) (normalizeEmail <$> xs)
  | Text s =>
      filter (fun e => Is_true (Str.nonempty e))
        ((fun piece => normalizeEmail (JStr piece)) <$> Str.split is_separator s)
  end.

(** One round of the [forEach] callback of [dedupeEmails], on the pair of
    the [seen] set and the [result] array. *)
Definition dedupe_step (st : gset string * list jsval) (email : jsval)
    : gset string * list jsval :=
  let '(seen, result) := st in
  let normalized := normalizeEmail email in
  if Str.is_empty normalized || bool_decide (normalized ∈ seen) then st
  else ({[normalized]} ∪ seen, result ++ [email]).

Definition dedupeEmails (values : list jsval) : list jsval :=
  snd (fold_left dedupe_step values (∅, [])).

(** ** Formatter *)

Record submission := {
  sub_name : string;
  sub_email : string;
  sub_subject : string;
  sub_message : string;
  (** [submittedAt.toISOString()] *)
  sub_submittedAt : string;
}.

Record rendered := { text : string; html : string }.

Definition nl : string := String "010" EmptyString.

(** An entry of the [lines] array: a string or [null]. *)
Definition line_kept (l : option string) : bool :=
  match l with
  | Some s => Str.nonempty s
  | None => false
  end.

Definition formatEmailBody (s : submission) : rendered :=
  let name := sub_name s in
  let email := sub_email s in
  let message := sub_message s in
  let submittedLabel := sub_submittedAt s in
  let safeMessage := escapeHtml message in
  let safeName := escapeHtml name in
  let safeEmail := escapeHtml email in
  let lines : list (option string) :=
    [ Some "New contact form submission received.";
      Some ("Submitted at: " +:+ submittedLabel);
      if Str.nonempty name then Some ("Name: " +:+ name) else None;
      if Str.nonempty email then Some ("Email: " +:+ email) else None;
      Some EmptyString;
      Some message ] in
  let kept := omap id (filter (fun l => Is_true (line_kept l)) lines) in
  {| text := Str.join nl kept;
     html :=
       nl +:+ "    <p><strong>New contact form submission received.</strong></p>" +:+ nl
       +:+ "    <ul>" +:+ nl
       +:+ "      <li><strong>Submitted at:</strong> " +:+ submittedLabel +:+ "</li>" +:+ nl
       +:+ "      "
       +:+ (if Str.nonempty name
            then "<li><strong>Name:</strong> " +:+ safeName +:+ "</li>" else EmptyString) +:+ nl
       +:+ "      "
       +:+ (if Str.nonempty email
            then "<li><strong>Email:</strong> " +:+ safeEmail +:+ "</li>" else EmptyString) +:+ nl
       +:+ "    </ul>" +:+ nl
       +:+ "    <p><strong>Message:</strong></p>" +:+ nl
       +:+ "    <blockquote>" +:+ Str.replaceAll "010" "<br>" safeMessage
       +:+ "</blockquote>" +:+ nl
       +:+ "  " |}.

(** The [safeSubject] constant of the handler. *)
Definition safeSubject (subject : string) : string :=
  if Str.startsWith subject "Website contact:" then subject
  else "Website contact: " +:+ subject.

(** ** Effects: the world, the trace and the monad of the handler *)

Record mail := {
  mail_to : list jsval;
  mail_subject : string;
  mail_text : string;
  mail_html : string;
  mail_replyTo : string;
  mail_headers : list (string * string);
}.

(** A call returns a value or throws (an [await]ed promise resolves or
    rejects). *)
Inductive outcome (A : Type) :=
| Returned (a : A)
| Thrown (e : jsval).
Arguments Returned {A} a.
Arguments Thrown {A} e.

Record world := {
  (** [process.env] *)
  env : string -> option string;
  (** what [isMailConfigured()] answers *)
  isMailConfigured : bool;
  (** what [listTeamMemberEmails()] does *)
  listTeamMemberEmails : outcome (list jsval);
  (** what awaiting [sendMail(m)] does *)
  sendMail : mail -> outcome jsval;
  (** [new Date().toISOString()] *)
  now : string;
}.

Inductive event :=
| EnvRead (name : string)
| CallIsMailConfigured
| CallListTeamMemberEmails
| CallSendMail (m : mail)
| ConsoleError (label : string) (error : jsval).

Definition trace := list event.

Definition M (A : Type) : Type := trace -> outcome A * trace.

Definition ret {A} (a : A) : M A := fun t => (Returned a, t).

Definition throw {A} (e : jsval) : M A := fun t => (Thrown e, t).

Definition bind {A B} (m : M A) (k : A -> M B) : M B :=
  fun t =>
    match m t with
    | (Returned a, t') => k a t'
    | (Thrown e, t') => (Thrown e, t')
    end.

Definition emit (e : event) : M unit := fun t => (Returned tt, t ++ [e]).

Definition lift {A} (o : outcome A) : M A := fun t => (o, t).

(** [try { m } catch (error) { h error }] *)
Definition try_catch {A} (m : M A) (h : jsval -> M A) : M A :=
  fun t =>
    match m t with
    | (Returned a, t') => (Returned a, t')
    | (Thrown e, t') => h e t'
    end.

Notation "'let*' x ':=' m 'in' k" := (bind m (fun x => k))
  (at level 10, x name, m at level 100, k at level 200).

Notation "'run*' m 'in' k" := (bind m (fun _ => k))
  (at level 10, m at level 100, k at level 200).

(** ** Recipient resolver *)

Definition read_env (w : world) (name : string) : M (option string) :=
  run* emit (EnvRead name) in ret (env w name).

Definition setting_of (v : option string) : setting :=
  match v with
  | None => Unset
  | Some s => Text s
  end.

Definition env_value (v : option string) : jsval :=
  match v with
  | None => JUndefined
  | Some s => JStr s
  end.

Definition is_nil {A} (l : list A) : bool :=
  match l with [] => true | _ :: _ => false end.

Definition resolveContactRecipients (w : world) : M (list jsval) :=
  let* v1 := read_env w "CONTACT_FORM_RECIPIENTS" in
  let* v2 := read_env w "CONTACT_RECIPIENTS" in
  let* v3 := read_env w "CONTACT_EMAIL" in
  let* v4 := read_env w "SUPPORT_EMAIL" in
  let envCandidates := [v1; v2; v3; v4] in
  let recipients :=
    dedupeEmails
      (JStr <$> concat ((fun value => parseRecipientList (setting_of value))
                          <$> envCandidates)) in
  if negb (is_nil recipients) then ret recipients
  else
    run* emit CallListTeamMemberEmails in
    let* members := lift (listTeamMemberEmails w) in
    let fallback := dedupeEmails members in
    if negb (is_nil fallback) then ret fallback
    else
      let* mailFrom := read_env w "MAIL_FROM" in
      let* from :=
        (if truthy (env_value mailFrom) then ret mailFrom
         else read_env w "SMTP_USER") in
      let smtpUser := normalizeEmail (env_value from) in
      ret (if Str.nonempty smtpUser then [JStr smtpUser] else []).

(** ** Handler *)

(** The request, after [JSON.parse(event.body)]: [None] when parsing (or
    reading [event.body]) throws. *)
Record request := { parsed_body : option jsval }.

(** A response; [body] is the value handed to [JSON.stringify]. *)
Record response := { statusCode : number; body : jsval }.

Definition error_response (status : Z) (message : string) : response :=
  {| statusCode := Int status; body := JObj [("error"%string, JStr message)] |}.

(** The [TypeError] of reading a property of [undefined] or [null]
    (message text as in V8). *)
Definition type_error_reading (v : jsval) (prop : string) : jsval :=
  JObj [("name"%string, JStr "TypeError");
        ("message"%string,
         JStr ("Cannot read properties of "
               +:+ (match v with JNull => "null" | _ => "undefined" end)
               +:+ " (reading '" +:+ prop +:+ "')"))].

(** The status of the [catch] block. *)
Definition failure_status (error : jsval) : number :=
  match opt_get error "statusCode" with
  | JNum n => if number_ge n 400 then n else Int 500
  | _ => Int 500
  end.

Definition failure_response (error : jsval) : response :=
  {| statusCode := failure_status error;
     body := JObj [("error"%string, JStr "Failed to send contact email");
                   ("details"%string, js_or (opt_get error "message") JNull)] |}.

Definition success_response (mailResult : jsval) : response :=
  {| statusCode := Int 200;
     body := JObj [("success"%string, JBool true);
                   ("sent_to"%string, opt_get mailResult "to");
                   ("message_id"%string,
                    js_or (opt_get mailResult "messageId") JNull)] |}.

Definition handler (w : world) (event : request) : M response :=
  run* emit CallIsMailConfigured in
  if negb (isMailConfigured w) then
    ret (error_response 503
      "Email service is not configured. Set SMTP credentials to enable contact form notifications.")
  else
    match parsed_body event with
    | None => ret (error_response 400 "Invalid JSON")
    | Some body =>
        let name := normalizeString (opt_get body "name") in
        let email := normalizeString (opt_get body "email") in
        let subject := normalizeString (opt_get body "subject") in
        let message := normalizeString (opt_get body "message") in
        if Str.is_empty subject then
          ret (error_response 400 "Subject is required")
        else if Str.is_empty message then
          ret (error_response 400 "Message is required")
        else if Str.is_empty email || negb (isLikelyEmail (JStr email)) then
          ret (error_response 400 "A valid email address is required")
        else
          let* recipients := resolveContactRecipients w in
          if is_nil recipients then
            ret (error_response 503
              "No contact recipients configured. Set CONTACT_FORM_RECIPIENTS or CONTACT_EMAIL in the environment.")
          else
            let rendered :=
              formatEmailBody {| sub_name := name; sub_email := email;
                                 sub_subject := subject; sub_message := message;
                                 sub_submittedAt := now w |} in
            let m := {| mail_to := recipients;
                        mail_subject := safeSubject subject;
                        mail_text := text rendered;
                        mail_html := html rendered;
                        mail_replyTo := email;
                        mail_headers :=
                          [("X-Entity"%string, "contact-form-message"%string)] |} in
            try_catch
              (run* emit (CallSendMail m) in
               let* mailResult := lift (sendMail w m) in
               if is_nullish mailResult
               then throw (type_error_reading mailResult "to")
               else ret (success_response mailResult))
              (fun error =>
                 run* emit (ConsoleError "Contact form email failed" error) in
                 ret (failure_response error))
    end.

(** ** Vocabulary of the statements *)

Definition envCandidateValues (w : world) : list (option string) :=
  [env w "CONTACT_FORM_RECIPIENTS"; env w "CONTACT_RECIPIENTS";
   env w "CONTACT_EMAIL"; env w "SUPPORT_EMAIL"].

(** The parsed, deduplicated union of the environment recipient settings:
    the [recipients] constant of [resolveContactRecipients]. *)
Definition envRecipients (w : world) : list jsval :=
  dedupeEmails
    (JStr <$> concat ((fun value => parseRecipientList (setting_of value))
                        <$> envCandidateValues w)).

(** The four reads of [envCandidates]. *)
Definition env_reads : trace :=
  [EnvRead "CONTACT_FORM_RECIPIENTS"; EnvRead "CONTACT_RECIPIENTS";
   EnvRead "CONTACT_EMAIL"; EnvRead "SUPPORT_EMAIL"].

Definition is_send (e : event) : bool :=
  match e with CallSendMail _ => true | _ => false end.

(** The request passes the three field checks of the handler. *)
Definition validated (event : request) : bool :=
  match parsed_body event with
  | None => false
  | Some body =>
      let email := normalizeString (opt_get body "email") in
      Str.nonempty (normalizeString (opt_get body "subject"))
      && Str.nonempty (normalizeString (opt_get body "message"))
      && Str.nonempty email && isLikelyEmail (JStr email)
  end.

(** The subject rule with the guard spelled like the prepended prefix,
    trailing space included. *)
Definition subject_rule_with_spaced_guard (subject : string) : Prop :=
  safeSubject subject =
    if Str.startsWith subject "Website contact: " then subject
    else "Website contact: " +:+ subject.

(** A text body laid out with a blank line before the message. *)
Definition text_with_blank_line (s : submission) : string :=
  Str.join nl
    (["New contact form submission received.";
      "Submitted at: " +:+ sub_submittedAt s]
     ++ (if Str.nonempty (sub_name s) then ["Name: " +:+ sub_name s] else [])
     ++ (if Str.nonempty (sub_email s) then ["Email: " +:+ sub_email s] else [])
     ++ [EmptyString; sub_message s]).

Definition sample_submission : submission :=
  {| sub_name := "A"; sub_email := "a@b.com"; sub_subject := "Hi";
     sub_message := "Hello"; sub_submittedAt := "2024-01-02T03:04:05.000Z" |}.

Definition sample_body : jsval :=
  JObj [("name", JStr "A"); ("email", JStr "a@b.com");
        ("subject", JStr "Hi"); ("message", JStr "Hello")]%string.

Definition sample_request : request := {| parsed_body := Some sample_body |}.

Definition accepting_transport (m : mail) : outcome jsval :=
  Returned (JObj [("to"%string, JArr (mail_to m))]).

(** No recipient setting, and a team directory that fails. *)
Definition world_directory_down : world :=
  {| env := fun _ => None;
     isMailConfigured := true;
     listTeamMemberEmails :=
       Thrown (JObj [("message"%string, JStr "directory unavailable")]);
     sendMail := accepting_transport;
     now := "2024-01-02T03:04:05.000Z" |}.

(** One recipient setting, and a team directory that fails. *)
Definition world_env_only : world :=
  {| env := fun name =>
       if String.eqb name "CONTACT_EMAIL" then Some "Admin@Example.com"%string
       else None;
     isMailConfigured := true;
     listTeamMemberEmails :=
       Thrown (JObj [("message"%string, JStr "directory unavailable")]);
     sendMail := accepting_transport;
     now := "2024-01-02T03:04:05.000Z" |}.

(** Nothing configured at all. *)
Definition world_no_recipients : world :=
  {| env := fun _ => None;
     isMailConfigured := true;
     listTeamMemberEmails := Returned [];
     sendMail := accepting_transport;
     now := "2024-01-02T03:04:05.000Z" |}.

(** A transport that rejects with the given error. *)
Definition world_rejecting (error : jsval) : world :=
  {| env := fun name =>
       if String.eqb name "CONTACT_EMAIL" then Some "x@y.com"%string else None;
     isMailConfigured := true;
     listTeamMemberEmails := Returned [];
     sendMail := fun _ => Thrown error;
     now := "2024-01-02T03:04:05.000Z" |}.

(** The message the handler hands to [sendMail], for a parsed body and
    the resolved recipients. *)
Definition dispatched_mail (w : world) (body : jsval) (recipients : list jsval)
    : mail :=
  let name := normalizeString (opt_get body "name") in
  let email := normalizeString (opt_get body "email") in
  let subject := normalizeString (opt_get body "subject") in
  let message := normalizeString (opt_get body "message") in
  let rendered :=
    formatEmailBody {| sub_name := name; sub_email := email;
                       sub_subject := subject; sub_message := message;
                       sub_submittedAt := now w |} in
  {| mail_to := recipients;
     mail_subject := safeSubject subject;
     mail_text := text rendered;
     mail_html := html rendered;
     mail_replyTo := email;
     mail_headers := [("X-Entity"%string, "contact-form-message"%string)] |}.

Definition no_recipients_message : string :=
  "No contact recipients configured. Set CONTACT_FORM_RECIPIENTS or CONTACT_EMAIL in the environment.".

Definition send_failed_label : string := "Contact form email failed".

Definition sample_error : jsval :=
  JObj [("statusCode"%string, JNum (Int 429));
        ("message"%string, JStr "rate limited")].

(** ** Vocabulary of the statements: escaping *)

(** The HTML entity standing for a character: [&], [<], [>], the double
    quote and the apostrophe have one, any other character stands for
    itself. *)
Definition html_entity (c : ascii) : string :=
  if Ascii.eqb c "&" then "&amp;"
  else if Ascii.eqb c "<" then "&lt;"
  else if Ascii.eqb c ">" then "&gt;"
  else if Ascii.eqb c Char.dquote then "&quot;"
  else if Ascii.eqb c "'" then "&#39;"
  else String c EmptyString.

(** Every character replaced by its entity. *)
Fixpoint escape_entities (s : string) : string :=
  match s with
  | EmptyString => EmptyString
  | String c r => html_entity c +:+ escape_entities r
  end.

(** The characters that open or close markup or an attribute value. *)
Definition is_markup_char (c : ascii) : bool :=
  Ascii.eqb c "<" || Ascii.eqb c ">" || Ascii.eqb c Char.dquote
  || Ascii.eqb c "'".

(** The HTML body the specification describes: the fixed markup around
    the timestamp, the name and email items when present and the message,
    every user-supplied field with its characters replaced by entities,
    the newlines of the message by line breaks. *)
Definition html_with_entities (s : submission) : string :=
  nl +:+ "    <p><strong>New contact form submission received.</strong></p>" +:+ nl
  +:+ "    <ul>" +:+ nl
  +:+ "      <li><strong>Submitted at:</strong> " +:+ sub_submittedAt s +:+ "</li>" +:+ nl
  +:+ "      "
  +:+ (if Str.nonempty (sub_name s)
       then "<li><strong>Name:</strong> " +:+ escape_entities (sub_name s) +:+ "</li>"
       else EmptyString) +:+ nl
  +:+ "      "
  +:+ (if Str.nonempty (sub_email s)
       then "<li><strong>Email:</strong> " +:+ escape_entities (sub_email s) +:+ "</li>"
       else EmptyString) +:+ nl
  +:+ "    </ul>" +:+ nl
  +:+ "    <p><strong>Message:</strong></p>" +:+ nl
  +:+ "    <blockquote>"
  +:+ Str.replaceAll "010" "<br>" (escape_entities (sub_message s))
  +:+ "</blockquote>" +:+ nl
  +:+ "  ".

Definition script_submission : submission :=
  {| sub_name := "A"; sub_email := "a@b.com"; sub_subject := "Hi";
     sub_message := "Hello <script>alert(1)</script>";
     sub_submittedAt := "2024-01-02T03:04:05.000Z" |}.

(** The lines of the text body as [formatEmailBody] produces them for a
    non-empty message. *)
Definition text_lines (s : submission) : list string :=
  ["New contact form submission received.";
   "Submitted at: " +:+ sub_submittedAt s]
  ++ (if Str.nonempty (sub_name s) then ["Name: " +:+ sub_name s] else [])
  ++ (if Str.nonempty (sub_email s) then ["Email: " +:+ sub_email s] else [])
  ++ [sub_message s].

(** ** Vocabulary of the statements: deduplication *)

(** [dedupeEmails] as a recursion on the list, for a given set of keys
    already seen. *)
Fixpoint keep_unseen (seen : gset string) (values : list jsval) : list jsval :=
  match values with
  | [] => []
  | email :: rest =>
      let normalized := normalizeEmail email in
      if Str.is_empty normalized || bool_decide (normalized ∈ seen)
      then keep_unseen seen rest
      else email :: keep_unseen ({[normalized]} ∪ seen) rest
  end.

(** [email] has the comparison key [k]. *)
Definition has_key (k : string) (email : jsval) : bool :=
  String.eqb (normalizeEmail email) k.

(** The distinct elements of a list, each once, in the order of their
    first occurrence. *)
Fixpoint distinct_first_seen (l : list string) : list string :=
  match l with
  | [] => []
  | x :: rest => x :: filter (fun y => y <> x) (distinct_first_seen rest)
  end.

(** The addresses of an environment setting as they are written there:
    the non-empty pieces between the separators, casing untouched. *)
Definition addresses_as_written (value : option string) : list string :=
  match value with
  | None => []
  | Some s => filter (fun e => Is_true (Str.nonempty e)) (Str.split is_separator s)
  end.

Definition written_addresses (w : world) : list string :=
  concat (addresses_as_written <$> envCandidateValues w).

(** The environment recipients keep the address first written for each
    comparison key, in its original casing. *)
Definition env_recipients_keep_casing (w : world) : Prop :=
  forall a, a ∈ written_addresses w ->
    find (has_key (normalizeEmail (JStr a))) (envRecipients w)
    = find (has_key (normalizeEmail (JStr a))) (JStr <$> written_addresses w).

(** ** Vocabulary of the statements: plausible addresses *)

(** A segment: non-empty and free of whitespace. *)
Definition segment (s : string) : Prop :=
  s <> EmptyString /\ Str.forallb (fun c => negb (Char.is_ws c)) s = true.

(** The minimal shape of an address: exactly one [@], a segment before it,
    and after it a [.] with a segment on either side. *)
Definition minimal_email_shape (t : string) : Prop :=
  Str.count (Ascii.eqb "@") t = 1%nat
  /\ exists local before after,
       t = local +:+ "@" +:+ before +:+ "." +:+ after
       /\ segment local /\ segment before /\ segment after.

(** ** Vocabulary of the statements: trimming and escaping *)

Definition starts_with_ws (s : string) : bool :=
  match s with
  | EmptyString => false
  | String c _ => Char.is_ws c
  end.

Fixpoint ends_with_ws (s : string) : bool :=
  match s with
  | EmptyString => false
  | String c EmptyString => Char.is_ws c
  | String _ r => ends_with_ws r
  end.

(** The characters [escapeHtml] replaces. *)
Definition needs_escape (c : ascii) : bool :=
  Ascii.eqb c "&" || is_markup_char c.

(** ** Vocabulary of the statements: the fallback sources *)

(** The reads and the call made when the team directory is consulted. *)
Definition directory_reads : trace := env_reads ++ [CallListTeamMemberEmails].

(** A team directory with a padded, mixed-case address, a non-string, a
    repetition of the first address in another casing, and a second
    address. *)
Definition world_team_directory : world :=
  {| env := fun _ => None;
     isMailConfigured := true;
     listTeamMemberEmails :=
       Returned [JStr " Ann@Team.io "; JNum (Int 1); JStr "ann@team.io";
                 JStr "Bob@team.io"];
     sendMail := accepting_transport;
     now := "2024-01-02T03:04:05.000Z" |}.

(** No recipient setting, an empty directory, a whitespace-only
    [MAIL_FROM] and a usable [SMTP_USER]. *)
Definition world_blank_mail_from : world :=
  {| env := fun name =>
       if String.eqb name "MAIL_FROM" then Some "  "%string
       else if String.eqb name "SMTP_USER" then Some "ops@x.io"%string
       else None;
     isMailConfigured := true;
     listTeamMemberEmails := Returned [];
     sendMail := accepting_transport;
     now := "2024-01-02T03:04:05.000Z" |}.

(** No recipient setting, a directory of blanks, no [MAIL_FROM] and a
    padded, mixed-case [SMTP_USER]. *)
Definition world_smtp_user : world :=
  {| env := fun name =>
       if String.eqb name "SMTP_USER" then Some " Ops@X.io "%string else None;
     isMailConfigured := true;
     listTeamMemberEmails := Returned [JStr "  "; JNull];
     sendMail := accepting_transport;
     now := "2024-01-02T03:04:05.000Z" |}.

(** ** Vocabulary of the statements: the handler's phases *)

Definition not_configured_message : string :=
  "Email service is not configured. Set SMTP credentials to enable contact form notifications.".

(** The message of the first field check that fails, in the order the
    handler makes them. *)
Definition validation_error (event : request) : string :=
  match parsed_body event with
  | None => "Invalid JSON"
  | Some body =>
      if Str.is_empty (normalizeString (opt_get body "subject"))
      then "Subject is required"
      else if Str.is_empty (normalizeString (opt_get body "message"))
      then "Message is required"
      else "A valid email address is required"
  end.

Definition world_unconfigured : world :=
  {| env := fun name =>
       if String.eqb name "CONTACT_EMAIL" then Some "x@y.com"%string else None;
     isMailConfigured := false;
     listTeamMemberEmails := Returned [];
     sendMail := accepting_transport;
     now := "2024-01-02T03:04:05.000Z" |}.

(** A transport that resolves with [undefined]. *)
Definition world_silent_transport : world :=
  {| env := fun name =>
       if String.eqb name "CONTACT_EMAIL" then Some "x@y.com"%string else None;
     isMailConfigured := true;
     listTeamMemberEmails := Returned [];
     sendMail := fun _ => Returned JUndefined;
     now := "2024-01-02T03:04:05.000Z" |}.

(** A body with a blank subject, no message and a malformed address. *)
Definition request_blank_subject : request :=
  {| parsed_body :=
       Some (JObj [("subject"%string, JStr "   ");
                   ("email"%string, JStr "nobody")]) |}.

(** * Database-listing function of [netlify/functions/hello.js]

    The MongoDB driver is a collaborator: what constructing the client,
    connecting, listing the databases and closing do is taken from a
    [Hello.world], and every call is recorded. *)

Module Hello.

Inductive event :=
| NewMongoClient (uri : option string)
| Connect
| ListDatabases
| Close.

Record world := {
  (** [process.env.MONGO_URI] *)
  mongo_uri : option string;
  (** what [new MongoClient(uri)] does *)
  newClient : option string -> outcome unit;
  (** what awaiting [client.connect()] does *)
  connect : outcome unit;
  (** what awaiting [client.db().admin().listDatabases()] does *)
  listDatabases : outcome jsval;
  (** what awaiting [client.close()] does *)
  close : outcome unit;
}.

Definition M (A : Type) : Type := list event -> outcome A * list event.

Definition ret {A} (a : A) : M A := fun t => (Returned a, t).

Definition throw {A} (e : jsval) : M A := fun t => (Thrown e, t).

Definition bind {A B} (m : M A) (k : A -> M B) : M B :=
  fun t =>
    match m t with
    | (Returned a, t') => k a t'
    | (Thrown e, t') => (Thrown e, t')
    end.

Definition call {A} (e : event) (o : outcome A) : M A := fun t => (o, t ++ [e]).

(** [try { m } catch (err) { h err }] *)
Definition try_catch {A} (m : M A) (h : jsval -> M A) : M A :=
  fun t =>
    match m t with
    | (Returned a, t') => (Returned a, t')
    | (Thrown e, t') => h e t'
    end.

(** [try { m } finally { f }]: the completion of [m] stands unless [f]
    throws. *)
Definition try_finally {A} (m : M A) (f : M unit) : M A :=
  fun t =>
    match m t with
    | (o, t') =>
        match f t' with
        | (Returned _, t'') => (o, t'')
        | (Thrown e, t'') => (Thrown e, t'')
        end
    end.

Definition handler (w : world) : M response :=
  let uri := mongo_uri w in
  bind (call (NewMongoClient uri) (newClient w uri)) (fun _ =>
  try_finally
    (try_catch
       (bind (call Connect (connect w)) (fun _ =>
        bind (call ListDatabases (listDatabases w)) (fun databases =>
        ret {| statusCode := Int 200;
               body := JObj [("databases"%string, databases)] |})))
       (fun err =>
          if is_nullish err then throw (type_error_reading err "message")
          else ret {| statusCode := Int 500;
                      body := JObj [("error"%string, opt_get err "message")] |}))
    (call Close (close w))).

(** The calls made once the client exists. *)
Definition session (w : world) : list event :=
  [NewMongoClient (mongo_uri w); Connect]
  ++ (match connect w with Returned _ => [ListDatabases] | Thrown _ => [] end)
  ++ [Close].

(** Connecting, then listing: the listing, or the first error. *)
Definition attempt (w : world) : outcome jsval :=
  match connect w with
  | Thrown e => Thrown e
  | Returned _ => listDatabases w
  end.

Definition sample_databases : jsval :=
  JObj [("databases"%string, JArr [JObj [("name"%string, JStr "admin")]])].

(** Listing succeeds, closing fails. *)
Definition world_close_fails : world :=
  {| mongo_uri := Some "mongodb://db"%string;
     newClient := fun _ => Returned tt;
     connect := Returned tt;
     listDatabases := Returned sample_databases;
     close := Thrown (JObj [("message"%string, JStr "socket closed")]) |}.

(** Connecting fails. *)
Definition world_connect_fails : world :=
  {| mongo_uri := Some "mongodb://db"%string;
     newClient := fun _ => Returned tt;
     connect := Thrown (JObj [("message"%string, JStr "ECONNREFUSED")]);
     listDatabases := Returned sample_databases;
     close := Returned tt |}.

(** No URI: the constructor throws. *)
Definition world_no_uri : world :=
  {| mongo_uri := None;
     newClient := fun uri =>
       match uri with
       | None => Thrown (JObj [("message"%string, JStr "Invalid connection string")])
       | Some _ => Returned tt
       end;
     connect := Returned tt;
     listDatabases := Returned sample_databases;
     close := Returned tt |}.

End Hello.

(** * Properties *)

(** ** Strings *)

Lemma app_nil_l_str (s : string) : EmptyString +:+ s = s.
Proof. reflexivity. Qed.

Lemma app_cons_str (c : ascii) (a b : string) :
  String c a +:+ b = String c (a +:+ b).
Proof. reflexivity. Qed.

Ltac str_simpl := simpl; rewrite ?app_cons_str, ?app_nil_l_str.

Lemma app_nil_r_str (s : string) : s +:+ EmptyString = s.
Proof. induction s as [|c s IH]; str_simpl; congruence. Qed.

Lemma app_assoc_str (a b c : string) : (a +:+ b) +:+ c = a +:+ (b +:+ c).
Proof. induction a as [|x a IH]; str_simpl; congruence. Qed.

Lemma forallb_app_str (p : ascii -> bool) (a b : string) :
  Str.forallb p (a +:+ b) = Str.forallb p a && Str.forallb p b.
Proof.
  induction a as [|x a IH]; str_simpl; [reflexivity|].
  simpl. rewrite IH. now rewrite andb_assoc.
Qed.

Lemma count_app_str (p : ascii -> bool) (a b : string) :
  Str.count p (a +:+ b) = (Str.count p a + Str.count p b)%nat.
Proof.
  induction a as [|x a IH]; str_simpl; [reflexivity|].
  simpl. rewrite IH. lia.
Qed.

Lemma replaceAll_app (c : ascii) (by_ a b : string) :
  Str.replaceAll c by_ (a +:+ b)
  = Str.replaceAll c by_ a +:+ Str.replaceAll c by_ b.
Proof.
  induction a as [|x a IH]; str_simpl; [reflexivity|].
  simpl. destruct (Ascii.eqb x c); rewrite IH;
    [now rewrite app_assoc_str | reflexivity].
Qed.

Lemma prefix_app (p s post : string) :
  String.prefix p s = true -> String.prefix p (s +:+ post) = true.
Proof.
  revert s. induction p as [|x p IH]; intros [|y s]; str_simpl; try easy.
  - now destruct post.
  - simpl. destruct (ascii_dec x y); [apply IH | easy].
Qed.

Lemma prefix_self_app (p b : string) : String.prefix p (p +:+ b) = true.
Proof.
  induction p as [|x p IH]; str_simpl; [now destruct b|].
  simpl. destruct (ascii_dec x x); [exact IH | congruence].
Qed.

Lemma prefix_split (p s : string) :
  String.prefix p s = true -> exists b, s = p +:+ b.
Proof.
  revert s. induction p as [|x p IH]; intros s H.
  - now exists s.
  - destruct s as [|y s]; simpl in H; [discriminate|].
    destruct (ascii_dec x y) as [->|]; [|discriminate].
    destruct (IH s H) as [b ->]. now exists b.
Qed.

Lemma includes_cons (x : ascii) (s p : string) :
  Str.includes (String x s) p
  = String.prefix p (String x s) || Str.includes s p.
Proof. reflexivity. Qed.

Lemma includes_nil (p : string) :
  Str.includes EmptyString p = Str.is_empty p.
Proof. now destruct p. Qed.

Lemma includes_app_r (pre s p : string) :
  Str.includes s p = true -> Str.includes (pre +:+ s) p = true.
Proof.
  intros H. induction pre as [|x pre IH]; [exact H|].
  rewrite app_cons_str, includes_cons, IH. apply orb_true_r.
Qed.

Lemma includes_app_l (s post p : string) :
  Str.includes s p = true -> Str.includes (s +:+ post) p = true.
Proof.
  induction s as [|x s IH]; intros H.
  - rewrite includes_nil in H. destruct p; [|discriminate].
    destruct post; reflexivity.
  - rewrite includes_cons in H. rewrite app_cons_str, includes_cons.
    apply orb_true_iff in H as [H|H].
    + rewrite <- app_cons_str, (prefix_app _ _ post H). reflexivity.
    + rewrite (IH H). apply orb_true_r.
Qed.

Lemma includes_split (s p : string) :
  Str.includes s p = true -> exists a b, s = a +:+ p +:+ b.
Proof.
  induction s as [|x s IH]; intros H.
  - rewrite includes_nil in H. destruct p; [|discriminate].
    now exists EmptyString, EmptyString.
  - rewrite includes_cons in H. apply orb_true_iff in H as [H|H].
    + destruct (prefix_split _ _ H) as [b Hb]. now exists EmptyString, b.
    + destruct (IH H) as (a & b & ->). now exists (String x a), b.
Qed.

Lemma includes_middle (a p b : string) : Str.includes (a +:+ p +:+ b) p = true.
Proof.
  apply includes_app_r.
  destruct (p +:+ b) as [|x r] eqn:E.
  - destruct p; [reflexivity | discriminate].
  - rewrite includes_cons, <- E, prefix_self_app. reflexivity.
Qed.

(** ** Characters, trimming and splitting *)

Lemma is_ws_lower (c : ascii) : Char.is_ws (Char.lower c) = Char.is_ws c.
Proof. destruct c as [[] [] [] [] [] [] [] []]; reflexivity. Qed.

Lemma lower_lower (c : ascii) : Char.lower (Char.lower c) = Char.lower c.
Proof. destruct c as [[] [] [] [] [] [] [] []]; reflexivity. Qed.

Lemma ws_is_separator (c : ascii) :
  negb (is_separator c) = true -> negb (Char.is_ws c) = true.
Proof.
  unfold is_separator. destruct (Char.is_ws c); [|reflexivity].
  now rewrite orb_true_r.
Qed.

Lemma forallb_impl_str (p q : ascii -> bool) (s : string) :
  (forall c, p c = true -> q c = true) ->
  Str.forallb p s = true -> Str.forallb q s = true.
Proof.
  intros Hpq. induction s as [|c s IH]; [reflexivity|].
  cbn [Str.forallb]. intros [Hc Hs]%andb_true_iff.
  now rewrite (Hpq c Hc), IH.
Qed.

Lemma toLowerCase_lower (s : string) :
  Str.toLowerCase (Str.toLowerCase s) = Str.toLowerCase s.
Proof.
  unfold Str.toLowerCase. induction s as [|c s IH]; [reflexivity|].
  cbn [Str.map]. now rewrite lower_lower, IH.
Qed.

Lemma toLowerCase_no_ws (s : string) :
  Str.forallb (fun c => negb (Char.is_ws c)) (Str.toLowerCase s)
  = Str.forallb (fun c => negb (Char.is_ws c)) s.
Proof.
  unfold Str.toLowerCase. induction s as [|c s IH]; [reflexivity|].
  cbn [Str.map Str.forallb]. now rewrite is_ws_lower, IH.
Qed.

Lemma toLowerCase_is_empty (s : string) :
  Str.is_empty (Str.toLowerCase s) = Str.is_empty s.
Proof. now destruct s. Qed.

Lemma trimEnd_no_ws (s : string) :
  Str.forallb (fun c => negb (Char.is_ws c)) s = true -> Str.trimEnd s = s.
Proof.
  induction s as [|c s IH]; [reflexivity|].
  cbn [Str.forallb Str.trimEnd]. intros [Hc Hs]%andb_true_iff.
  rewrite (IH Hs). apply negb_true_iff in Hc. rewrite Hc. now destruct s.
Qed.

Lemma trim_no_ws (s : string) :
  Str.forallb (fun c => negb (Char.is_ws c)) s = true -> Str.trim s = s.
Proof.
  intros H. unfold Str.trim.
  assert (Hs : Str.trimStart s = s).
  { destruct s as [|c s]; [reflexivity|]. cbn [Str.forallb] in H.
    apply andb_true_iff in H as [Hc _]. apply negb_true_iff in Hc.
    cbn [Str.trimStart]. now rewrite Hc. }
  rewrite Hs. now apply trimEnd_no_ws.
Qed.

Lemma forallb_rev_app (p : ascii -> bool) (a b : string) :
  Str.forallb p (String.rev_app a b) = Str.forallb p a && Str.forallb p b.
Proof.
  revert b. induction a as [|c a IH]; intros b; [reflexivity|].
  cbn [String.rev_app Str.forallb]. rewrite IH. cbn [Str.forallb].
  now rewrite andb_assoc, (andb_comm (Str.forallb p a) (p c)).
Qed.

(** No piece of a split holds a separator. *)
Lemma split_go_pieces (sep : ascii -> bool) (s : string) :
  forall in_run cur piece,
    Str.forallb (fun c => negb (sep c)) cur = true ->
    piece ∈ Str.split_go sep in_run cur s ->
    Str.forallb (fun c => negb (sep c)) piece = true.
Proof.
  induction s as [|c s IH]; intros in_run cur piece Hcur Hin.
  - cbn [Str.split_go] in Hin. apply list_elem_of_singleton in Hin as ->.
    unfold String.rev. now rewrite forallb_rev_app, Hcur.
  - cbn [Str.split_go] in Hin. destruct (sep c) eqn:Hc.
    + destruct in_run.
      * now apply (IH true EmptyString).
      * apply elem_of_cons in Hin as [->|Hin].
        -- unfold String.rev. now rewrite forallb_rev_app, Hcur.
        -- now apply (IH true EmptyString).
    + apply (IH false (String c cur)); [|exact Hin].
      cbn [Str.forallb]. now rewrite Hc.
Qed.

Lemma split_pieces (s piece : string) :
  piece ∈ Str.split is_separator s ->
  Str.forallb (fun c => negb (Char.is_ws c)) piece = true.
Proof.
  intros Hin. apply (forallb_impl_str _ _ _ ws_is_separator).
  now apply (split_go_pieces is_separator s false EmptyString).
Qed.

(** ** Regular expressions: the matcher decides the language *)

Lemma app_eq_nil_str (a b : string) :
  a +:+ b = EmptyString -> a = EmptyString /\ b = EmptyString.
Proof.
  destruct a; [rewrite app_nil_l_str; now intros -> | rewrite app_cons_str; discriminate].
Qed.

Lemma app_eq_cons_str (a b : string) (c : ascii) (s : string) :
  a +:+ b = String c s ->
  (a = EmptyString /\ b = String c s)
  \/ exists a', a = String c a' /\ s = a' +:+ b.
Proof.
  destruct a as [|x a]; [rewrite app_nil_l_str; now left|].
  rewrite app_cons_str. intros [= -> <-]. right. now exists a.
Qed.

Lemma nullable_lang (r : Regex.regex) :
  Regex.nullable r = true <-> Regex.lang r EmptyString.
Proof.
  induction r as [| |p|r1 IH1 r2 IH2|r1 IH1 r2 IH2|r IH]; cbn [Regex.nullable].
  - split; [discriminate | intros H; inversion H].
  - split; [constructor | reflexivity].
  - split; [discriminate | intros H; inversion H].
  - rewrite andb_true_iff, IH1, IH2. split.
    + intros [H1 H2]. exact (Regex.lang_cat _ _ _ _ H1 H2).
    + intros H. inversion H as [| |? ? s1 s2 H1 H2 Hr Hs| | | |]; subst.
      apply app_eq_nil_str in Hs as [-> ->]. now split.
  - rewrite orb_true_iff, IH1, IH2. split.
    + intros [H|H]; [now apply Regex.lang_alt_l | now apply Regex.lang_alt_r].
    + intros H. inversion H; subst; tauto.
  - split; [constructor | reflexivity].
Qed.

Lemma lang_star_cons (r : Regex.regex) (c : ascii) (s : string) :
  Regex.lang (Regex.Star r) (String c s) ->
  exists s1 s2,
    s = s1 +:+ s2 /\ Regex.lang r (String c s1) /\ Regex.lang (Regex.Star r) s2.
Proof.
  intros H. remember (Regex.Star r) as r' eqn:Hr.
  remember (String c s) as x eqn:Hx.
  induction H as [| | | | | |r0 s1 s2 H1 _ H2 IH2]; try discriminate.
  injection Hr as ->.
  apply app_eq_cons_str in Hx as [[-> ->]|(a' & -> & ->)].
  - now apply IH2.
  - now exists a', s2.
Qed.

Lemma deriv_lang (r : Regex.regex) (c : ascii) (s : string) :
  Regex.lang (Regex.deriv c r) s <-> Regex.lang r (String c s).
Proof.
  revert s.
  induction r as [| |p|r1 IH1 r2 IH2|r1 IH1 r2 IH2|r IH]; intros s;
    cbn [Regex.deriv].
  - split; intros H; inversion H.
  - split; intros H; inversion H.
  - destruct (p c) eqn:Hp; split; intros H; inversion H; subst.
    + now constructor.
    + constructor.
    + congruence.
  - assert (Hcat : Regex.lang (Regex.Cat (Regex.deriv c r1) r2) s
                   -> Regex.lang (Regex.Cat r1 r2) (String c s)).
    { intros H. inversion H as [| |? ? s1 s2 H1 H2| | | |]; subst.
      apply IH1 in H1. rewrite <- app_cons_str. now constructor. }
    split.
    + destruct (Regex.nullable r1) eqn:Hn; [|exact Hcat].
      intros H. inversion H as [| | |? ? ? H1|? ? ? H2| |]; subst.
      * now apply Hcat.
      * apply IH2 in H2. apply nullable_lang in Hn.
        rewrite <- (app_nil_l_str (String c s)). now constructor.
    + intros H. inversion H as [| |? ? s1 s2 H1 H2 Hr Hs| | | |]; subst.
      apply app_eq_cons_str in Hs as [[-> ->]|(a' & -> & ->)].
      * apply nullable_lang in H1. rewrite H1.
        apply Regex.lang_alt_r. now apply IH2.
      * assert (Hc : Regex.lang (Regex.Cat (Regex.deriv c r1) r2) (a' +:+ s2))
          by (constructor; [now apply IH1 | exact H2]).
        destruct (Regex.nullable r1); [now apply Regex.lang_alt_l | exact Hc].
  - split; intros H; inversion H; subst.
    + apply Regex.lang_alt_l. now apply IH1.
    + apply Regex.lang_alt_r. now apply IH2.
    + apply Regex.lang_alt_l. now apply IH1.
    + apply Regex.lang_alt_r. now apply IH2.
  - split.
    + intros H. inversion H as [| |? ? s1 s2 H1 H2| | | |]; subst.
      apply IH in H1. rewrite <- app_cons_str. now constructor.
    + intros (s1 & s2 & -> & H1 & H2)%lang_star_cons.
      constructor; [now apply IH | exact H2].
Qed.

(** [test] decides membership in the language of the pattern. *)
Lemma test_lang (r : Regex.regex) (s : string) :
  Regex.test r s = true <-> Regex.lang r s.
Proof.
  revert r. induction s as [|c s IH]; intros r; cbn [Regex.test].
  - apply nullable_lang.
  - rewrite IH. apply deriv_lang.
Qed.

Lemma lang_cat_iff (r1 r2 : Regex.regex) (s : string) :
  Regex.lang (Regex.Cat r1 r2) s
  <-> exists s1 s2, s = s1 +:+ s2 /\ Regex.lang r1 s1 /\ Regex.lang r2 s2.
Proof.
  split.
  - intros H. inversion H as [| |? ? s1 s2 H1 H2| | | |]; subst. eauto.
  - intros (s1 & s2 & -> & H1 & H2). now constructor.
Qed.

Lemma lang_class_iff (p : ascii -> bool) (s : string) :
  Regex.lang (Regex.Class p) s
  <-> exists c, s = String c EmptyString /\ p c = true.
Proof.
  split.
  - intros H. inversion H; subst. eauto.
  - intros (c & -> & Hc). now constructor.
Qed.

Lemma lang_chr_iff (c : ascii) (s : string) :
  Regex.lang (Regex.Chr c) s <-> s = String c EmptyString.
Proof.
  unfold Regex.Chr. rewrite lang_class_iff. split.
  - intros (c' & -> & Hc). apply Ascii.eqb_eq in Hc. now subst.
  - intros ->. exists c. split; [reflexivity | apply Ascii.eqb_refl].
Qed.

Lemma lang_star_class (p : ascii -> bool) (s : string) :
  Regex.lang (Regex.Star (Regex.Class p)) s <-> Str.forallb p s = true.
Proof.
  split.
  - intros H. remember (Regex.Star (Regex.Class p)) as r eqn:Hr.
    induction H as [| | | | | |r0 s1 s2 H1 _ H2 IH2]; try discriminate.
    + reflexivity.
    + injection Hr as ->. apply lang_class_iff in H1 as (c & -> & Hc).
      rewrite app_cons_str, app_nil_l_str. cbn [Str.forallb].
      now rewrite Hc, IH2.
  - induction s as [|c s IH]; [constructor|].
    cbn [Str.forallb]. intros [Hc Hs]%andb_true_iff.
    change (String c s) with (String c EmptyString +:+ s).
    constructor; [now constructor | now apply IH].
Qed.

Lemma lang_plus_class (p : ascii -> bool) (s : string) :
  Regex.lang (Regex.Plus (Regex.Class p)) s
  <-> s <> EmptyString /\ Str.forallb p s = true.
Proof.
  unfold Regex.Plus. rewrite lang_cat_iff. split.
  - intros (s1 & s2 & -> & (c & -> & Hc)%lang_class_iff & H2%lang_star_class).
    rewrite app_cons_str, app_nil_l_str. cbn [Str.forallb].
    rewrite Hc, H2. split; [discriminate | reflexivity].
  - intros [Hne Hs]. destruct s as [|c s]; [congruence|].
    cbn [Str.forallb] in Hs. apply andb_true_iff in Hs as [Hc Hs].
    exists (String c EmptyString), s. split; [reflexivity|].
    split; [now constructor | now apply lang_star_class].
Qed.

(** The language of the address pattern. *)
Lemma email_pattern_lang (t : string) :
  Regex.lang email_pattern t
  <-> exists local before after,
        t = local +:+ "@" +:+ before +:+ "." +:+ after
        /\ (local <> EmptyString /\ Str.forallb not_ws_at local = true)
        /\ (before <> EmptyString /\ Str.forallb not_ws_at before = true)
        /\ (after <> EmptyString /\ Str.forallb not_ws_at after = true).
Proof.
  unfold email_pattern. split.
  - intros (l & r1 & -> & Hl%lang_plus_class & H1)%lang_cat_iff.
    apply lang_cat_iff in H1 as (a & r2 & -> & ->%lang_chr_iff & H2).
    apply lang_cat_iff in H2 as (d1 & r3 & -> & Hd1%lang_plus_class & H3).
    apply lang_cat_iff in H3 as (d & d2 & -> & ->%lang_chr_iff & Hd2%lang_plus_class).
    now exists l, d1, d2.
  - intros (l & d1 & d2 & -> & Hl & Hd1 & Hd2).
    constructor; [now apply lang_plus_class|].
    constructor; [now apply lang_chr_iff|].
    constructor; [now apply lang_plus_class|].
    constructor; [now apply lang_chr_iff | now apply lang_plus_class].
Qed.

Lemma not_ws_at_split (s : string) :
  Str.forallb not_ws_at s = true
  <-> Str.forallb (fun c => negb (Char.is_ws c)) s = true
      /\ Str.count (Ascii.eqb "@") s = 0%nat.
Proof.
  induction s as [|c s IH]; [easy|].
  cbn [Str.forallb Str.count]. rewrite !andb_true_iff, IH.
  unfold not_ws_at. rewrite (Ascii.eqb_sym "@" c).
  destruct (Char.is_ws c), (Ascii.eqb c "@"); cbn; intuition (try discriminate; lia).
Qed.

Lemma trim_all_ws (s : string) :
  Str.forallb Char.is_ws s = true -> Str.trim s = EmptyString.
Proof.
  unfold Str.trim. induction s as [|c s IH]; [reflexivity|].
  cbn [Str.forallb Str.trimStart]. intros [Hc Hs]%andb_true_iff.
  rewrite Hc. now apply IH.
Qed.

(** ** Plausible addresses *)

(** C6: [isLikelyEmail] answers true exactly for a string whose trimmed
    form is non-empty and has the minimal shape: exactly one [@] with a
    non-empty whitespace-free part before it, and after it a [.] between
    two non-empty whitespace-free parts; it answers false for every value
    that is not a string and for every empty or whitespace-only string. *)
Theorem isLikelyEmail_minimal_shape (value : jsval) :
  (isLikelyEmail value = true
   <-> exists s,
         value = JStr s /\ Str.trim s <> EmptyString
         /\ minimal_email_shape (Str.trim s))
  /\ match value with
     | JStr s =>
         Str.forallb Char.is_ws s = true -> isLikelyEmail value = false
     | _ => isLikelyEmail value = false
     end.
Proof.
  split.
  - split.
    + destruct value as [| | | |s| |]; try discriminate.
      cbn [isLikelyEmail]. intros H.
      destruct (Str.trim s) as [|c t] eqn:Ht; [discriminate|].
      cbn [Str.is_empty] in H. rewrite <- Ht in *.
      apply test_lang, email_pattern_lang in H
        as (l & d1 & d2 & Heq & [Hl1 Hl2] & [Hb1 Hb2] & [Ha1 Ha2]).
      apply not_ws_at_split in Hl2 as [Hl2 Hl3].
      apply not_ws_at_split in Hb2 as [Hb2 Hb3].
      apply not_ws_at_split in Ha2 as [Ha2 Ha3].
      exists s. split; [reflexivity|]. split; [rewrite Ht; discriminate|].
      split.
      * rewrite Heq, !count_app_str, Hl3, Hb3, Ha3. reflexivity.
      * exists l, d1, d2. unfold segment. tauto.
    + intros (s & -> & Hne & Hcount & l & d1 & d2 & Heq & [Hl1 Hl2] & [Hb1 Hb2]
              & [Ha1 Ha2]).
      cbn [isLikelyEmail].
      destruct (Str.trim s) as [|c t] eqn:Ht; [congruence|].
      cbn [Str.is_empty]. rewrite <- Ht in *.
      apply test_lang, email_pattern_lang. exists l, d1, d2.
      rewrite Heq, !count_app_str in Hcount. cbn in Hcount.
      split; [exact Heq|].
      repeat split; try assumption; apply not_ws_at_split; split;
        try assumption; lia.
  - destruct value as [| | | |s| |]; try reflexivity.
    intros Hws. cbn [isLikelyEmail]. now rewrite (trim_all_ws s Hws).
Qed.

Lemma isLikelyEmail_examples :
  isLikelyEmail (JStr " a@b.com ") = true
  /\ isLikelyEmail (JStr "a@b") = false
  /\ isLikelyEmail (JStr "a b@c.d") = false
  /\ isLikelyEmail (JStr "a@b@c.d") = false
  /\ isLikelyEmail (JStr "a@b.") = false
  /\ isLikelyEmail (JNum (Int 7)) = false.
Proof. repeat split. Qed.

Lemma isLikelyEmail_minimal_shape_witness :
  isLikelyEmail (JStr " a@b.com ") = true.
Proof.
  apply (proj1 (isLikelyEmail_minimal_shape (JStr " a@b.com "))).
  exists " a@b.com "%string.
  split; [reflexivity|]. split; [vm_compute; discriminate|].
  split; [reflexivity|].
  exists "a"%string, "b"%string, "com"%string.
  split; [reflexivity|].
  repeat split; discriminate.
Defined.

(** ** Deduplication *)

Lemma dedupe_fold (values : list jsval) (seen : gset string) (result : list jsval) :
  snd (fold_left dedupe_step values (seen, result))
  = result ++ keep_unseen seen values.
Proof.
  revert seen result. induction values as [|email rest IH]; intros seen result.
  - cbn. now rewrite app_nil_r.
  - cbn [fold_left keep_unseen]. unfold dedupe_step at 2.
    destruct (Str.is_empty (normalizeEmail email)
              || bool_decide (normalizeEmail email ∈ seen)).
    + apply IH.
    + rewrite IH, <- app_assoc. reflexivity.
Qed.

Lemma dedupeEmails_keep_unseen (values : list jsval) :
  dedupeEmails values = keep_unseen ∅ values.
Proof. unfold dedupeEmails. now rewrite dedupe_fold. Qed.

Lemma keep_unseen_sublist (seen : gset string) (values : list jsval) :
  sublist (keep_unseen seen values) values.
Proof.
  revert seen. induction values as [|email rest IH]; intros seen; cbn.
  - constructor.
  - destruct (_ || _); [apply sublist_cons | apply sublist_skip]; apply IH.
Qed.

Lemma keep_unseen_keys (seen : gset string) (values : list jsval) (e : jsval) :
  e ∈ keep_unseen seen values ->
  Str.is_empty (normalizeEmail e) = false /\ normalizeEmail e ∉ seen.
Proof.
  revert seen. induction values as [|email rest IH]; intros seen; cbn.
  - intros H. inversion H.
  - destruct (Str.is_empty (normalizeEmail email)) eqn:Hk; cbn [orb].
    { apply IH. }
    destruct (bool_decide (normalizeEmail email ∈ seen)) eqn:Hs.
    { apply IH. }
    apply bool_decide_eq_false in Hs.
    intros [->|Hin]%elem_of_cons; [easy|].
    destruct (IH _ Hin) as [? Hn]. split; [easy|]. set_solver.
Qed.

Lemma keep_unseen_NoDup (seen : gset string) (values : list jsval) :
  NoDup (normalizeEmail <$> keep_unseen seen values).
Proof.
  revert seen. induction values as [|email rest IH]; intros seen; cbn.
  - constructor.
  - destruct (_ || _); [apply IH|].
    rewrite fmap_cons. constructor; [|apply IH].
    intros (e & He & Hin)%list_elem_of_fmap.
    apply keep_unseen_keys in Hin as [_ Hn]. rewrite <- He in Hn. set_solver.
Qed.

Lemma keep_unseen_find (seen : gset string) (values : list jsval) (k : string) :
  Str.is_empty k = false -> k ∉ seen ->
  find (has_key k) (keep_unseen seen values) = find (has_key k) values.
Proof.
  intros Hk. revert seen.
  induction values as [|email rest IH]; intros seen Hs; [reflexivity|].
  cbn [keep_unseen find].
  destruct (has_key k email) eqn:Hkey; unfold has_key in Hkey.
  - apply String.eqb_eq in Hkey. rewrite Hkey, Hk. cbn [orb].
    rewrite bool_decide_eq_false_2 by exact Hs.
    cbn [find]. unfold has_key at 1. rewrite Hkey. now rewrite String.eqb_refl.
  - apply String.eqb_neq in Hkey.
    destruct (_ || _); [now apply IH|].
    cbn [find]. unfold has_key at 1.
    rewrite (proj2 (String.eqb_neq _ _) Hkey).
    apply IH. set_solver.
Qed.

Lemma keep_unseen_fixed (seen : gset string) (l : list jsval) :
  NoDup (normalizeEmail <$> l) ->
  (forall e, e ∈ l ->
     Str.is_empty (normalizeEmail e) = false /\ normalizeEmail e ∉ seen) ->
  keep_unseen seen l = l.
Proof.
  revert seen. induction l as [|x l IH]; intros seen Hnd Hk; [reflexivity|].
  cbn. rewrite fmap_cons in Hnd. apply NoDup_cons in Hnd as [Hx Hnd].
  destruct (Hk x) as [Hx1 Hx2]; [left|].
  rewrite Hx1. cbn [orb]. rewrite bool_decide_eq_false_2 by exact Hx2.
  f_equal. apply IH; [exact Hnd|].
  intros e He. destruct (Hk e) as [He1 He2]; [now right|].
  split; [exact He1|].
  intros [Heq%elem_of_singleton|Hin]%elem_of_union; [|easy].
  apply Hx. rewrite <- Heq. now apply list_elem_of_fmap_2.
Qed.

(** C10: for every list of values (of strings in particular) the output of
    [dedupeEmails] is a sublist of the input, so every output element
    occurs in the input and input order is kept; the trimmed-lowercased
    keys of the output are pairwise distinct and none is empty; for each
    non-empty key the output holds the first input element with that key;
    and deduplicating a second time changes nothing. *)
Theorem dedupeEmails_idempotent (values : list jsval) :
  sublist (dedupeEmails values) values
  /\ NoDup (normalizeEmail <$> dedupeEmails values)
  /\ (EmptyString ∉ normalizeEmail <$> dedupeEmails values)
  /\ (forall k,
        find (has_key k) (dedupeEmails values)
        = if Str.is_empty k then None else find (has_key k) values)
  /\ dedupeEmails (dedupeEmails values) = dedupeEmails values.
Proof.
  rewrite !dedupeEmails_keep_unseen.
  split; [apply keep_unseen_sublist|].
  split; [apply keep_unseen_NoDup|].
  split.
  { intros (e & He & Hin)%list_elem_of_fmap.
    apply keep_unseen_keys in Hin as [Hk _]. now rewrite <- He in Hk. }
  split.
  { intros k. destruct (Str.is_empty k) eqn:Hk.
    - destruct (find _ _) as [e|] eqn:Hf; [|reflexivity].
      apply find_some in Hf as [Hin Hkey].
      apply list_elem_of_In, keep_unseen_keys in Hin as [Hne _].
      unfold has_key in Hkey. apply String.eqb_eq in Hkey. congruence.
    - apply keep_unseen_find; [exact Hk | set_solver]. }
  apply keep_unseen_fixed; [apply keep_unseen_NoDup|].
  intros e He. apply keep_unseen_keys in He as [? _]. split; [easy | set_solver].
Qed.

(** ** Recipient resolution: control flow *)

Lemma is_nil_false {A} (l : list A) : is_nil l = false <-> l <> [].
Proof. destruct l; simpl; split; congruence. Qed.


(** When the environment settings yield an address, the resolver reads
    the four settings and nothing else. *)
Lemma resolve_from_env (w : world) (t : trace) :
  is_nil (envRecipients w) = false ->
  resolveContactRecipients w t = (Returned (envRecipients w), t ++ env_reads).
Proof.
  intros H.
  cbv [resolveContactRecipients read_env bind emit ret].
  fold (envCandidateValues w). fold (envRecipients w).
  rewrite H. cbn [negb]. unfold env_reads.
  now rewrite <- !app_assoc.
Qed.

(** The resolver appends to the trace, and never a transport call; what
    it returns does not depend on the trace it starts from. *)
Lemma resolve_trace (w : world) (t : trace) :
  exists evs,
    resolveContactRecipients w t
    = (fst (resolveContactRecipients w []), t ++ evs)
    /\ forallb (fun e => negb (is_send e)) evs = true.
Proof.
  cbv [resolveContactRecipients read_env bind emit ret lift].
  fold (envCandidateValues w). fold (envRecipients w).
  destruct (is_nil (envRecipients w)); cbn [negb].
  2:{ eexists. rewrite <- !app_assoc. split; reflexivity. }
  destruct (listTeamMemberEmails w) as [members|e].
  2:{ eexists. rewrite <- !app_assoc. split; reflexivity. }
  destruct (is_nil (dedupeEmails members)); cbn [negb].
  2:{ eexists. rewrite <- !app_assoc. split; reflexivity. }
  destruct (truthy (env_value (env w "MAIL_FROM"))).
  - eexists. rewrite <- !app_assoc. split; reflexivity.
  - eexists. rewrite <- !app_assoc. split; reflexivity.
Qed.

Lemma no_send_in (evs : trace) (m : mail) :
  forallb (fun e => negb (is_send e)) evs = true -> CallSendMail m ∉ evs.
Proof.
  intros H Hin. rewrite forallb_forall in H.
  apply list_elem_of_In in Hin. now apply H in Hin.
Qed.

(** ** Environment recipients *)

Lemma parse_pieces (pieces : list string) :
  (forall p, p ∈ pieces ->
     Str.forallb (fun c => negb (Char.is_ws c)) p = true) ->
  filter (fun e => Is_true (Str.nonempty e))
    ((fun piece => normalizeEmail (JStr piece)) <$> pieces)
  = Str.toLowerCase <$> filter (fun e => Is_true (Str.nonempty e)) pieces.
Proof.
  induction pieces as [|p pieces IH]; intros Hp; [reflexivity|].
  rewrite fmap_cons. cbn [normalizeEmail].
  rewrite (trim_no_ws p) by (apply Hp; left).
  specialize (IH (fun q Hq => Hp q (list_elem_of_further _ _ _ Hq))).
  cbn [normalizeEmail] in IH.
  destruct p as [|c p].
  - rewrite !filter_cons_False by (cbn; tauto). exact IH.
  - rewrite !filter_cons_True by exact I.
    rewrite fmap_cons. now rewrite IH.
Qed.

(** What [parseRecipientList] makes of an environment setting: the
    addresses written there, lowercased. *)
Lemma parseRecipientList_lowercases (value : option string) :
  parseRecipientList (setting_of value)
  = Str.toLowerCase <$> addresses_as_written value.
Proof.
  destruct value as [s|]; [|reflexivity].
  destruct s as [|c s]; [reflexivity|].
  cbn [setting_of parseRecipientList addresses_as_written].
  apply parse_pieces. intros p. apply split_pieces.
Qed.

Lemma written_address_shape (value : option string) (a : string) :
  a ∈ addresses_as_written value ->
  Str.is_empty a = false
  /\ Str.forallb (fun c => negb (Char.is_ws c)) a = true.
Proof.
  destruct value as [s|]; cbn [addresses_as_written]; [|intros H; inversion H].
  intros [Hne Hin]%list_elem_of_filter. split.
  - unfold Str.nonempty in Hne. now destruct (Str.is_empty a).
  - now apply split_pieces in Hin.
Qed.

Lemma env_candidates_lowercased (w : world) :
  concat ((fun value => parseRecipientList (setting_of value))
            <$> envCandidateValues w)
  = Str.toLowerCase <$> written_addresses w.
Proof.
  unfold written_addresses, envCandidateValues.
  cbn [fmap list_fmap concat].
  rewrite !parseRecipientList_lowercases, !fmap_app. reflexivity.
Qed.

Lemma written_addresses_shape (w : world) (a : string) :
  a ∈ written_addresses w ->
  Str.is_empty a = false
  /\ Str.forallb (fun c => negb (Char.is_ws c)) a = true.
Proof.
  unfold written_addresses, envCandidateValues.
  cbn [fmap list_fmap concat]. rewrite app_nil_r.
  intros Hin. repeat apply elem_of_app in Hin as [Hin|Hin];
    now apply written_address_shape in Hin.
Qed.

(** A lowercased written address is its own comparison key. *)
Lemma lowercased_is_key (w : world) (a : string) :
  a ∈ Str.toLowerCase <$> written_addresses w ->
  normalizeEmail (JStr a) = a /\ Str.is_empty a = false.
Proof.
  intros (o & -> & Ho)%list_elem_of_fmap.
  apply written_addresses_shape in Ho as [Hne Hws].
  cbn [normalizeEmail]. rewrite trim_no_ws by now rewrite toLowerCase_no_ws.
  now rewrite toLowerCase_lower, toLowerCase_is_empty.
Qed.

Lemma filter_all {A} (P : A -> Prop) `{forall x, Decision (P x)} (l : list A) :
  (forall x, x ∈ l -> P x) -> filter P l = l.
Proof.
  induction l as [|x l IH]; intros Hl; [reflexivity|].
  rewrite filter_cons_True by (apply Hl; left).
  f_equal. apply IH. intros y Hy. apply Hl. now right.
Qed.

(** Seeing one more key beforehand removes the element with that key. *)
Lemma keep_unseen_insert (k : string) (values : list jsval) (seen : gset string) :
  keep_unseen ({[k]} ∪ seen) values
  = filter (fun e => normalizeEmail e <> k) (keep_unseen seen values).
Proof.
  revert seen. induction values as [|email rest IH]; intros seen; [reflexivity|].
  cbn [keep_unseen].
  destruct (Str.is_empty (normalizeEmail email)) eqn:Hk; cbn [orb]; [apply IH|].
  destruct (decide (normalizeEmail email ∈ seen)) as [Hs|Hs].
  { rewrite !bool_decide_eq_true_2 by set_solver. apply IH. }
  rewrite (bool_decide_eq_false_2 _ Hs).
  destruct (decide (normalizeEmail email = k)) as [Hek|Hek].
  - rewrite bool_decide_eq_true_2 by set_solver.
    rewrite filter_cons_False by tauto.
    rewrite Hek. rewrite filter_all; [reflexivity|].
    intros e He. apply keep_unseen_keys in He as [_ He]. set_solver.
  - rewrite bool_decide_eq_false_2 by set_solver.
    rewrite filter_cons_True by exact Hek.
    f_equal. rewrite <- IH. f_equal. set_solver.
Qed.

Lemma filter_keys_strings (x : string) (l : list string) :
  (forall a, a ∈ l -> normalizeEmail (JStr a) = a) ->
  filter (fun e => normalizeEmail e <> x) (JStr <$> l)
  = JStr <$> filter (fun y => y <> x) l.
Proof.
  induction l as [|a l IH]; intros Hl; [reflexivity|].
  rewrite fmap_cons, !filter_cons, (Hl a) by left.
  rewrite IH by (intros b Hb; apply Hl; now right).
  destruct (decide (a <> x)); reflexivity.
Qed.

Lemma distinct_first_seen_subset (l : list string) (a : string) :
  a ∈ distinct_first_seen l <-> a ∈ l.
Proof.
  induction l as [|x l IH]; [reflexivity|].
  cbn [distinct_first_seen]. rewrite !elem_of_cons, list_elem_of_filter, IH.
  destruct (decide (a = x)); tauto.
Qed.

Lemma distinct_first_seen_NoDup (l : list string) : NoDup (distinct_first_seen l).
Proof.
  induction l as [|x l IH]; cbn [distinct_first_seen]; constructor.
  - rewrite list_elem_of_filter. tauto.
  - now apply NoDup_filter.
Qed.

(** On strings that are their own key, [dedupeEmails] keeps the distinct
    ones in first-seen order. *)
Lemma keep_unseen_strings (l : list string) :
  (forall a, a ∈ l -> normalizeEmail (JStr a) = a /\ Str.is_empty a = false) ->
  keep_unseen ∅ (JStr <$> l) = JStr <$> distinct_first_seen l.
Proof.
  induction l as [|x l IH]; intros Hl; [reflexivity|].
  rewrite fmap_cons. cbn [keep_unseen distinct_first_seen].
  destruct (Hl x) as [Hx1 Hx2]; [left|].
  rewrite Hx1, Hx2. cbn [orb].
  rewrite bool_decide_eq_false_2 by set_solver.
  rewrite fmap_cons. f_equal.
  rewrite keep_unseen_insert, IH by (intros a Ha; apply Hl; now right).
  apply filter_keys_strings.
  intros a Ha. rewrite distinct_first_seen_subset in Ha.
  apply Hl. now right.
Qed.

Lemma envRecipients_lowercased (w : world) :
  envRecipients w
  = JStr <$> distinct_first_seen (Str.toLowerCase <$> written_addresses w).
Proof.
  unfold envRecipients.
  rewrite env_candidates_lowercased, dedupeEmails_keep_unseen.
  apply keep_unseen_strings. apply lowercased_is_key.
Qed.

(** C1, as amended: for every environment recipient configuration with
    at least one address, the resolved list holds the lowercased form of
    each case-insensitively distinct written address exactly once, in
    first-seen order; every element sent is its own trimmed, lowercased
    comparison key. *)
Theorem env_recipients_lowercased_once (w : world) (t : trace) :
  written_addresses w <> [] ->
  let sent := distinct_first_seen (Str.toLowerCase <$> written_addresses w) in
  resolveContactRecipients w t = (Returned (JStr <$> sent), t ++ env_reads)
  /\ NoDup sent
  /\ (forall a,
        a ∈ sent <->
        exists o, o ∈ written_addresses w /\ a = Str.toLowerCase o)
  /\ (forall a, a ∈ sent -> normalizeEmail (JStr a) = a).
Proof.
  intros Hne sent. subst sent. repeat split.
  - rewrite <- envRecipients_lowercased.
    apply resolve_from_env. rewrite envRecipients_lowercased.
    destruct (written_addresses w); [congruence | reflexivity].
  - apply distinct_first_seen_NoDup.
  - rewrite distinct_first_seen_subset.
    intros (o & -> & Ho)%list_elem_of_fmap. eauto.
  - intros (o & Ho & ->). rewrite distinct_first_seen_subset.
    now apply list_elem_of_fmap_2.
  - intros a Ha. rewrite distinct_first_seen_subset in Ha.
    now apply lowercased_is_key in Ha.
Qed.

Lemma env_recipients_lowercased_once_witness :
  resolveContactRecipients world_env_only []
  = (Returned [JStr "admin@example.com"], env_reads).
Proof.
  refine (proj1 (env_recipients_lowercased_once world_env_only [] _)).
  vm_compute. discriminate.
Defined.

(** C1 as stated fails: the one address written as "Admin@Example.com"
    is sent as "admin@example.com". *)
Lemma env_recipients_lose_casing : ~ env_recipients_keep_casing world_env_only.
Proof.
  intros H. specialize (H "Admin@Example.com"%string).
  assert (Hin : "Admin@Example.com"%string ∈ written_addresses world_env_only)
    by (apply list_elem_of_In; vm_compute; now left).
  apply H in Hin. vm_compute in Hin. discriminate.
Qed.

(** ** Recipient resolution: priority of the environment settings *)

(** C3: when the parsed, deduplicated union of the environment recipient
    settings is non-empty, [resolveContactRecipients] returns exactly that
    list; it reads the four settings and nothing else (the team directory
    is not called, the from-address settings are not read), and its result
    is the same in every world with the same four settings. *)
Theorem resolve_env_short_circuit (w : world) (t : trace) :
  envRecipients w <> [] ->
  resolveContactRecipients w t = (Returned (envRecipients w), t ++ env_reads)
  /\ (CallListTeamMemberEmails ∉ env_reads)
  /\ (EnvRead "MAIL_FROM" ∉ env_reads)
  /\ (EnvRead "SMTP_USER" ∉ env_reads)
  /\ forall w',
       envCandidateValues w' = envCandidateValues w ->
       resolveContactRecipients w' t = resolveContactRecipients w t.
Proof.
  intros Hne. apply is_nil_false in Hne.
  split; [now apply resolve_from_env|].
  repeat split.
  1-3: intros Hin; apply list_elem_of_In in Hin; cbn in Hin; intuition discriminate.
  intros w' Hw'.
  assert (Hsame : envRecipients w' = envRecipients w)
    by (unfold envRecipients; now rewrite Hw').
  rewrite (resolve_from_env w t Hne).
  rewrite <- Hsame in Hne |- *.
  now apply resolve_from_env.
Qed.

Lemma resolve_env_short_circuit_witness :
  envRecipients world_env_only <> []
  /\ resolveContactRecipients world_env_only []
     = (Returned (envRecipients world_env_only), env_reads).
Proof.
  assert (H : envRecipients world_env_only <> []) by (vm_compute; discriminate).
  split; [exact H|].
  exact (proj1 (resolve_env_short_circuit world_env_only [] H)).
Defined.

(** ** Subject normalization *)

Lemma safeSubject_guarded (subject : string) :
  Str.startsWith (safeSubject subject) "Website contact:" = true.
Proof.
  unfold safeSubject.
  destruct (Str.startsWith subject "Website contact:") eqn:E; [exact E|].
  reflexivity.
Qed.

(** C4, as amended: the dispatched subject is the subject unchanged when
    it begins with the guard literal "Website contact:" (no trailing
    space), and the prefix "Website contact: " followed by the subject
    otherwise; normalizing a normalized subject changes nothing. *)
Theorem safeSubject_idempotent (subject : string) :
  safeSubject subject =
    (if Str.startsWith subject "Website contact:" then subject
     else "Website contact: " +:+ subject)
  /\ safeSubject (safeSubject subject) = safeSubject subject.
Proof.
  split; [reflexivity|].
  unfold safeSubject at 1.
  now rewrite safeSubject_guarded.
Qed.

(** C4 as stated fails: a subject beginning with "Website contact:" but
    not with "Website contact: " is dispatched unchanged, not prefixed. *)
Lemma safeSubject_spaced_guard_fails :
  normalizeString (JStr "Website contact:x") = "Website contact:x"%string
  /\ ~ subject_rule_with_spaced_guard "Website contact:x".
Proof.
  split; [reflexivity|].
  unfold subject_rule_with_spaced_guard. vm_compute. discriminate.
Qed.

(** ** Escaping and rendering *)

Lemma replaceAll_cons (c : ascii) (by_ : string) (d : ascii) (r : string) :
  Str.replaceAll c by_ (String d r)
  = if Ascii.eqb d c then by_ +:+ Str.replaceAll c by_ r
    else String d (Str.replaceAll c by_ r).
Proof. reflexivity. Qed.

Lemma escapeHtml_cons (a : ascii) (s : string) :
  escapeHtml (String a s) = html_entity a +:+ escapeHtml s.
Proof.
  unfold html_entity.
  destruct (Ascii.eqb a "&") eqn:E1;
    [apply Ascii.eqb_eq in E1; subst; reflexivity|].
  destruct (Ascii.eqb a "<") eqn:E2;
    [apply Ascii.eqb_eq in E2; subst; reflexivity|].
  destruct (Ascii.eqb a ">") eqn:E3;
    [apply Ascii.eqb_eq in E3; subst; reflexivity|].
  destruct (Ascii.eqb a Char.dquote) eqn:E4;
    [apply Ascii.eqb_eq in E4; subst; reflexivity|].
  destruct (Ascii.eqb a "'") eqn:E5;
    [apply Ascii.eqb_eq in E5; subst; reflexivity|].
  unfold escapeHtml.
  rewrite replaceAll_cons, E1, replaceAll_cons, E2, replaceAll_cons, E3,
    replaceAll_cons, E4, replaceAll_cons, E5.
  reflexivity.
Qed.

(** The five chained replacements of [escapeHtml] amount to replacing
    every character by its entity. *)
Lemma escapeHtml_entities (s : string) : escapeHtml s = escape_entities s.
Proof.
  induction s as [|a s IH]; [reflexivity|].
  rewrite escapeHtml_cons, IH. reflexivity.
Qed.

Lemma escape_entities_app (a b : string) :
  escape_entities (a +:+ b) = escape_entities a +:+ escape_entities b.
Proof.
  induction a as [|x a IH]; [reflexivity|].
  rewrite app_cons_str. simpl. rewrite IH. now rewrite app_assoc_str.
Qed.

Lemma html_entity_no_markup (c : ascii) :
  Str.forallb (fun c => negb (is_markup_char c)) (html_entity c) = true.
Proof. destruct c as [[] [] [] [] [] [] [] []]; reflexivity. Qed.

Lemma escape_entities_no_markup (s : string) :
  Str.forallb (fun c => negb (is_markup_char c)) (escape_entities s) = true.
Proof.
  induction s as [|a s IH]; [reflexivity|].
  simpl. now rewrite forallb_app_str, html_entity_no_markup, IH.
Qed.

Lemma formatEmailBody_html (s : submission) :
  html (formatEmailBody s) = html_with_entities s.
Proof.
  unfold formatEmailBody, html_with_entities. cbn [html].
  now rewrite !escapeHtml_entities.
Qed.

(** The text body: header, timestamp, the name and email lines when
    present, then the message. *)
Lemma formatEmailBody_text (s : submission) :
  Str.nonempty (sub_message s) = true ->
  text (formatEmailBody s) = Str.join nl (text_lines s).
Proof.
  destruct s as [name email subject message label]. cbn [sub_message].
  intros Hm. destruct message as [|c m]; [discriminate|].
  destruct name, email; reflexivity.
Qed.

Lemma join_snoc (sep : string) (l : list string) (m : string) :
  l <> [] -> Str.join sep (l ++ [m]) = Str.join sep l +:+ sep +:+ m.
Proof.
  unfold Str.join. induction l as [|x l IH]; [congruence|]. intros _.
  destruct l as [|y l]; [reflexivity|].
  change (String.concat sep ((x :: y :: l) ++ [m]))
    with (x +:+ sep +:+ String.concat sep ((y :: l) ++ [m])).
  rewrite IH by discriminate.
  change (String.concat sep (x :: y :: l))
    with (x +:+ sep +:+ String.concat sep (y :: l)).
  now rewrite !app_assoc_str.
Qed.

Lemma formatEmailBody_text_ends (s : submission) :
  Str.nonempty (sub_message s) = true ->
  exists above, text (formatEmailBody s) = above +:+ sub_message s.
Proof.
  intros Hm. rewrite (formatEmailBody_text s Hm). unfold text_lines.
  rewrite !app_assoc. rewrite join_snoc by discriminate.
  eexists. now rewrite <- app_assoc_str.
Qed.

(** ** Text body *)

Lemma length_app_str (a b : string) :
  String.length (a +:+ b) = (String.length a + String.length b)%nat.
Proof.
  induction a as [|x a IH]; [reflexivity|].
  rewrite app_cons_str. cbn [String.length]. now rewrite IH.
Qed.

(** Whatever the submission, the text body is not the layout with a
    blank line before the message. *)
Lemma formatEmailBody_text_never_blank_line (s : submission) :
  Str.nonempty (sub_message s) = true ->
  text (formatEmailBody s) <> text_with_blank_line s.
Proof.
  intros Hm. rewrite (formatEmailBody_text s Hm).
  unfold text_lines, text_with_blank_line.
  change [EmptyString; sub_message s] with ([EmptyString] ++ [sub_message s]).
  rewrite !app_assoc.
  rewrite (join_snoc nl (_ ++ [EmptyString])) by (intros []%app_eq_nil; discriminate).
  rewrite !join_snoc by discriminate.
  rewrite !app_assoc_str. intros Heq.
  apply (inj (String.app _)) in Heq.
  apply (f_equal String.length) in Heq.
  rewrite !length_app_str in Heq. cbn in Heq. lia.
Qed.


(** C2 at a validated submission: the text body is the header, the
    timestamp line, the name line, the email line and then directly the
    message; the empty entry of [lines] is dropped by [filter(Boolean)],
    so no blank line separates the message from the lines above it. *)
Theorem formatEmailBody_text_sample :
  text (formatEmailBody sample_submission) =
    ("New contact form submission received." +:+ nl
     +:+ "Submitted at: 2024-01-02T03:04:05.000Z" +:+ nl
     +:+ "Name: A" +:+ nl
     +:+ "Email: a@b.com" +:+ nl
     +:+ "Hello")%string
  /\ text (formatEmailBody sample_submission)
     <> text_with_blank_line sample_submission.
Proof.
  split; [reflexivity|].
  vm_compute. discriminate.
Qed.

(** ** HTML and text bodies *)

(** C5: for a validated submission the HTML body is the fixed markup
    around the name, email and message with each of their characters
    [&], [<], [>], double quote and apostrophe replaced by its entity and
    the newlines of the message by line breaks, so that no escaped field
    holds a markup character; the text body ends with the message
    verbatim.  A message containing "<script>" shows as
    "&lt;script&gt;" in the HTML body and as "<script>" in the text
    body. *)
Theorem formatEmailBody_escapes (s : submission) :
  Str.nonempty (sub_message s) = true ->
  html (formatEmailBody s) = html_with_entities s
  /\ (forall field,
        Str.forallb (fun c => negb (is_markup_char c)) (escape_entities field)
        = true)
  /\ (exists above, text (formatEmailBody s) = above +:+ sub_message s)
  /\ (Str.includes (sub_message s) "<script>" = true ->
      Str.includes (html (formatEmailBody s)) "&lt;script&gt;" = true
      /\ Str.includes (text (formatEmailBody s)) "<script>" = true).
Proof.
  intros Hm.
  split; [apply formatEmailBody_html|].
  split; [apply escape_entities_no_markup|].
  split; [now apply formatEmailBody_text_ends|].
  intros Hs. split.
  - rewrite formatEmailBody_html. unfold html_with_entities.
    destruct (includes_split _ _ Hs) as (a & b & ->).
    rewrite !escape_entities_app, !replaceAll_app.
    do 20 apply includes_app_r.
    apply includes_app_l.
    apply includes_middle.
  - destruct (formatEmailBody_text_ends s Hm) as [above ->].
    now apply includes_app_r.
Qed.

Lemma formatEmailBody_escapes_witness :
  Str.includes (html (formatEmailBody script_submission)) "&lt;script&gt;" = true
  /\ Str.includes (text (formatEmailBody script_submission)) "<script>" = true.
Proof.
  exact (proj2 (proj2 (proj2
           (formatEmailBody_escapes script_submission eq_refl))) eq_refl).
Defined.

Lemma script_submission_html_has_no_script_tag :
  Str.includes (html (formatEmailBody script_submission)) "<script>" = false.
Proof. reflexivity. Qed.

(** ** Handler: control flow *)

Lemma not_send_app (t evs : trace) (m : mail) :
  CallSendMail m ∉ t ->
  forallb (fun e => negb (is_send e)) evs = true ->
  CallSendMail m ∉ t ++ evs.
Proof.
  intros Ht Hevs Hin. apply elem_of_app in Hin as [Hin|Hin]; [tauto|].
  now apply no_send_in in Hin.
Qed.

Ltac enter_handler Hc :=
  unfold handler; cbv [bind emit ret]; cbn [app]; rewrite Hc; cbn [negb].

Ltac pass_validation Hb Hv :=
  unfold validated in Hv; rewrite Hb in Hv |- *; cbv zeta in Hv;
  apply andb_true_iff in Hv as [Hv ?]; apply andb_true_iff in Hv as [Hv ?];
  apply andb_true_iff in Hv as [? ?];
  unfold Str.nonempty in *;
  repeat match goal with
         | H : negb _ = true |- _ => apply negb_true_iff in H
         end;
  repeat match goal with
         | H : Str.is_empty _ = false |- _ => rewrite H
         | H : isLikelyEmail _ = true |- _ => rewrite H
         end;
  cbn [orb negb].

(** Past validation with a non-empty recipient list, the handler sends
    one message and maps what the transport does to a response. *)
Lemma handler_dispatch (w : world) (event : request) (body : jsval)
    (recipients : list jsval) (evs : trace) :
  isMailConfigured w = true ->
  parsed_body event = Some body ->
  validated event = true ->
  resolveContactRecipients w [CallIsMailConfigured] = (Returned recipients, evs) ->
  recipients <> [] ->
  let m := dispatched_mail w body recipients in
  handler w event [] =
    match sendMail w m with
    | Thrown e =>
        (Returned (failure_response e),
         evs ++ [CallSendMail m; ConsoleError send_failed_label e])
    | Returned r =>
        if is_nullish r then
          (Returned (failure_response (type_error_reading r "to")),
           evs ++ [CallSendMail m;
                   ConsoleError send_failed_label (type_error_reading r "to")])
        else (Returned (success_response r), evs ++ [CallSendMail m])
    end.
Proof.
  intros Hc Hb Hv Hr Hne m.
  enter_handler Hc. pass_validation Hb Hv.
  rewrite Hr. apply is_nil_false in Hne. rewrite Hne.
  cbv [try_catch bind emit lift ret throw].
  fold (dispatched_mail w body recipients). fold m.
  destruct (sendMail w m) as [r|e].
  - destruct (is_nullish r); [|reflexivity].
    now rewrite <- app_assoc.
  - now rewrite <- app_assoc.
Qed.

(** Unless validation passes and a recipient is found, the transport is
    not called. *)
Lemma handler_no_dispatch (w : world) (event : request) :
  isMailConfigured w = false \/ validated event = false
  \/ (forall r, fst (resolveContactRecipients w []) = Returned r -> r = []) ->
  forall m, CallSendMail m ∉ snd (handler w event []).
Proof.
  intros H m.
  unfold handler; cbv [bind emit ret]; cbn [app].
  destruct (isMailConfigured w) eqn:Hc; cbn [negb].
  2:{ cbn. intros Hin. apply list_elem_of_In in Hin. cbn in Hin. intuition discriminate. }
  assert (Hstart : CallSendMail m ∉ [CallIsMailConfigured]).
  { intros Hin. apply list_elem_of_In in Hin. cbn in Hin. intuition discriminate. }
  destruct (parsed_body event) as [body|] eqn:Hb; [|exact Hstart].
  destruct (Str.is_empty (normalizeString (opt_get body "subject"))) eqn:Hs;
    [exact Hstart|].
  destruct (Str.is_empty (normalizeString (opt_get body "message"))) eqn:Hm;
    [exact Hstart|].
  destruct (Str.is_empty (normalizeString (opt_get body "email"))) eqn:He;
    [exact Hstart|].
  destruct (isLikelyEmail (JStr (normalizeString (opt_get body "email")))) eqn:Hl;
    [|exact Hstart].
  cbn [orb negb].
  destruct (resolve_trace w [CallIsMailConfigured]) as (evs & Hr & Hevs).
  rewrite Hr.
  destruct H as [H|[H|H]]; [discriminate| |].
  { unfold validated in H. rewrite Hb in H. cbv zeta in H.
    unfold Str.nonempty in H. rewrite Hs, Hm, He, Hl in H. discriminate. }
  destruct (fst (resolveContactRecipients w [])) as [r|e].
  - rewrite (H r eq_refl). cbn [is_nil snd]. now apply not_send_app.
  - cbn [snd]. now apply not_send_app.
Qed.

(** ** Handler: failures *)

(** C9: a request that passes field validation while recipient resolution
    yields the empty list is answered with status 503 and the
    configuration-error message, and the transport is never called. *)
Theorem handler_no_recipients_503 (w : world) (event : request) :
  isMailConfigured w = true ->
  validated event = true ->
  fst (resolveContactRecipients w []) = Returned [] ->
  fst (handler w event []) = Returned (error_response 503 no_recipients_message)
  /\ forall m, CallSendMail m ∉ snd (handler w event []).
Proof.
  intros Hc Hv Hr. split.
  - destruct (parsed_body event) as [body|] eqn:Hb;
      [|unfold validated in Hv; now rewrite Hb in Hv].
    enter_handler Hc. pass_validation Hb Hv.
    destruct (resolve_trace w [CallIsMailConfigured]) as (evs & Hrt & _).
    rewrite Hrt, Hr. reflexivity.
  - apply handler_no_dispatch. right; right.
    intros r Hr'. rewrite Hr in Hr'. now injection Hr'.
Qed.

Lemma handler_no_recipients_503_witness :
  fst (handler world_no_recipients sample_request [])
  = Returned (error_response 503 no_recipients_message).
Proof.
  refine (proj1 (handler_no_recipients_503 world_no_recipients sample_request _ _ _));
    reflexivity.
Defined.

(** C7: when the awaited transport call rejects with an error, the
    handler returns a response (nothing is rethrown): its status is the
    error's own [statusCode] when that is a number at least 400 and 500
    otherwise, its body carries the fixed description and, as details, the
    error's message ([null] when the error has none), and the error is
    logged with [console.error]. *)
Theorem handler_transport_failure (w : world) (event : request)
    (m : mail) (e : jsval) :
  CallSendMail m ∈ snd (handler w event []) ->
  sendMail w m = Thrown e ->
  exists r,
    handler w event [] = (Returned r, snd (handler w event []))
    /\ statusCode r =
         match opt_get e "statusCode" with
         | JNum n => if number_ge n 400 then n else Int 500
         | _ => Int 500
         end
    /\ body r =
         JObj [("error"%string, JStr "Failed to send contact email");
               ("details"%string,
                if truthy (opt_get e "message") then opt_get e "message"
                else JNull)]
    /\ last (snd (handler w event []))
       = Some (ConsoleError send_failed_label e).
Proof.
  intros Hin Hsend.
  destruct (isMailConfigured w) eqn:Hc.
  2:{ exfalso. revert Hin. apply handler_no_dispatch. now left. }
  destruct (validated event) eqn:Hv.
  2:{ exfalso. revert Hin. apply handler_no_dispatch. right. now left. }
  destruct (parsed_body event) as [body|] eqn:Hb;
    [|unfold validated in Hv; now rewrite Hb in Hv].
  destruct (resolve_trace w [CallIsMailConfigured]) as (evs & Hr & Hevs).
  destruct (fst (resolveContactRecipients w [])) as [[|r0 rs]|e0] eqn:Hres.
  1,3: exfalso; revert Hin; apply handler_no_dispatch; right; right;
       intros r Hr'; congruence.
  assert (Hne : r0 :: rs <> []) by discriminate.
  pose proof (handler_dispatch w event body _ _ Hc Hb Hv Hr Hne) as Hd.
  cbv zeta in Hd.
  set (m0 := dispatched_mail w body (r0 :: rs)) in *.
  assert (Hm : m = m0).
  { destruct (sendMail w m0) as [r|e1]; [destruct (is_nullish r)|];
      rewrite Hd in Hin; cbn [snd] in Hin;
      rewrite <- app_assoc in Hin;
      apply elem_of_cons in Hin as [Hin|Hin]; try discriminate;
      apply elem_of_app in Hin as [Hin|Hin];
      try (now apply no_send_in in Hin);
      apply list_elem_of_In in Hin; cbn in Hin;
      intuition congruence. }
  subst m. rewrite Hsend in Hd.
  exists (failure_response e). rewrite Hd. cbn [snd].
  repeat split.
  now rewrite last_app.
Qed.

Lemma handler_transport_failure_witness :
  exists r,
    fst (handler (world_rejecting sample_error) sample_request []) = Returned r
    /\ statusCode r = Int 429.
Proof.
  destruct (handler_transport_failure (world_rejecting sample_error)
              sample_request
              (dispatched_mail (world_rejecting sample_error) sample_body
                 [JStr "x@y.com"])
              sample_error) as (r & Hr & Hs & _).
  - apply list_elem_of_In. vm_compute. do 5 right. left. reflexivity.
  - reflexivity.
  - exists r. split; [now rewrite Hr | exact Hs].
Defined.

(** An error of the team directory is not caught by the handler. *)
Lemma handler_rethrows_directory_error (w : world) (event : request) (e : jsval) :
  isMailConfigured w = true ->
  validated event = true ->
  envRecipients w = [] ->
  listTeamMemberEmails w = Thrown e ->
  fst (handler w event []) = Thrown e.
Proof.
  intros Hc Hv Henv Hdir.
  destruct (parsed_body event) as [body|] eqn:Hb;
    [|unfold validated in Hv; now rewrite Hb in Hv].
  enter_handler Hc. pass_validation Hb Hv.
  cbv [resolveContactRecipients read_env bind emit ret lift].
  fold (envCandidateValues w). fold (envRecipients w).
  rewrite Henv, Hdir. reflexivity.
Qed.

(** C8 at a request that passes validation while no recipient setting is
    present and the team directory throws: [resolveContactRecipients] is
    called outside any [try], so the directory's error leaves the handler
    as a thrown error, not as a response. *)
Theorem handler_directory_error_escapes :
  validated sample_request = true
  /\ handler world_directory_down sample_request []
     = (Thrown (JObj [("message"%string, JStr "directory unavailable")]),
        [CallIsMailConfigured] ++ env_reads ++ [CallListTeamMemberEmails]).
Proof. split; reflexivity. Qed.

(** ** Trimming *)

Lemma trimStart_split (s : string) :
  exists l,
    s = l +:+ Str.trimStart s
    /\ Str.forallb Char.is_ws l = true
    /\ starts_with_ws (Str.trimStart s) = false.
Proof.
  induction s as [|c s (l & Hs & Hl & Hw)].
  - now exists EmptyString.
  - cbn [Str.trimStart]. destruct (Char.is_ws c) eqn:Hc.
    + exists (String c l). rewrite app_cons_str, <- Hs.
      cbn [Str.forallb]. now rewrite Hc, Hl.
    + exists EmptyString. cbn [starts_with_ws]. now rewrite Hc.
Qed.

Lemma trimEnd_split (s : string) :
  exists r,
    s = Str.trimEnd s +:+ r
    /\ Str.forallb Char.is_ws r = true
    /\ ends_with_ws (Str.trimEnd s) = false.
Proof.
  induction s as [|c s (r & Hs & Hr & Hw)].
  - now exists EmptyString.
  - cbn [Str.trimEnd]. destruct (Str.trimEnd s) as [|d t] eqn:Ht.
    + rewrite app_nil_l_str in Hs. subst r.
      destruct (Char.is_ws c) eqn:Hc.
      * exists (String c s). cbn [Str.forallb]. now rewrite Hc, Hr.
      * exists s. cbn [ends_with_ws]. now rewrite Hc.
    + exists r. rewrite app_cons_str, <- Hs. split; [reflexivity|].
      split; [exact Hr|]. exact Hw.
Qed.

Lemma trimEnd_keeps_start (s : string) :
  starts_with_ws s = false -> starts_with_ws (Str.trimEnd s) = false.
Proof.
  destruct s as [|c s]; [reflexivity|]. cbn [starts_with_ws Str.trimEnd].
  intros Hc. destruct (Str.trimEnd s); [rewrite Hc|]; cbn; now rewrite ?Hc.
Qed.

Lemma trimStart_fixed (s : string) :
  starts_with_ws s = false -> Str.trimStart s = s.
Proof.
  destruct s as [|c s]; [reflexivity|]. cbn [starts_with_ws Str.trimStart].
  now intros ->.
Qed.

Lemma trimEnd_fixed (s : string) :
  ends_with_ws s = false -> Str.trimEnd s = s.
Proof.
  induction s as [|c s IH]; [reflexivity|].
  cbn [Str.trimEnd]. destruct s as [|d t].
  - cbn. now intros ->.
  - intros H. rewrite IH by exact H. reflexivity.
Qed.

Lemma trim_split (s : string) :
  exists l r,
    s = l +:+ Str.trim s +:+ r
    /\ Str.forallb Char.is_ws l = true
    /\ Str.forallb Char.is_ws r = true.
Proof.
  unfold Str.trim.
  destruct (trimStart_split s) as (l & Hs & Hl & _).
  destruct (trimEnd_split (Str.trimStart s)) as (r & Ht & Hr & _).
  exists l, r. now rewrite <- Ht.
Qed.

Lemma trim_ends (s : string) :
  starts_with_ws (Str.trim s) = false /\ ends_with_ws (Str.trim s) = false.
Proof.
  unfold Str.trim.
  destruct (trimStart_split s) as (_ & _ & _ & Hw).
  destruct (trimEnd_split (Str.trimStart s)) as (_ & _ & _ & He).
  split; [now apply trimEnd_keeps_start | exact He].
Qed.

Lemma trim_trim (s : string) : Str.trim (Str.trim s) = Str.trim s.
Proof.
  destruct (trim_ends s) as [Hs He].
  unfold Str.trim at 1. rewrite (trimStart_fixed _ Hs). now apply trimEnd_fixed.
Qed.

(** [normalizeString] answers the empty string for every value that is
    not a string; for a string it answers the string without its leading
    and trailing whitespace and nothing else removed, and normalizing the
    answer again changes nothing. *)
Theorem normalizeString_trims (value : jsval) :
  match value with
  | JStr s =>
      exists l r,
        s = l +:+ normalizeString value +:+ r
        /\ Str.forallb Char.is_ws l = true
        /\ Str.forallb Char.is_ws r = true
  | _ => normalizeString value = EmptyString
  end
  /\ starts_with_ws (normalizeString value) = false
  /\ ends_with_ws (normalizeString value) = false
  /\ normalizeString (JStr (normalizeString value)) = normalizeString value.
Proof.
  destruct value as [| | | |s| |]; try (repeat split; reflexivity).
  cbn [normalizeString]. split; [apply trim_split|].
  split; [apply trim_ends|]. split; [apply trim_ends | apply trim_trim].
Qed.

(** ** Comparison keys *)

Lemma trimStart_lower (s : string) :
  Str.trimStart (Str.toLowerCase s) = Str.toLowerCase (Str.trimStart s).
Proof.
  unfold Str.toLowerCase. induction s as [|c s IH]; [reflexivity|].
  cbn [Str.map Str.trimStart]. rewrite is_ws_lower.
  destruct (Char.is_ws c); [exact IH | reflexivity].
Qed.

Lemma trimEnd_lower (s : string) :
  Str.trimEnd (Str.toLowerCase s) = Str.toLowerCase (Str.trimEnd s).
Proof.
  unfold Str.toLowerCase. induction s as [|c s IH]; [reflexivity|].
  cbn [Str.map Str.trimEnd]. rewrite IH, is_ws_lower.
  destruct (Str.trimEnd s); cbn [Str.map]; [|reflexivity].
  now destruct (Char.is_ws c).
Qed.

Lemma trim_lower (s : string) :
  Str.trim (Str.toLowerCase s) = Str.toLowerCase (Str.trim s).
Proof. unfold Str.trim. now rewrite trimStart_lower, trimEnd_lower. Qed.

Lemma trimEnd_all_ws (r : string) :
  Str.forallb Char.is_ws r = true -> Str.trimEnd r = EmptyString.
Proof.
  induction r as [|c r IH]; [reflexivity|].
  cbn [Str.forallb Str.trimEnd]. intros [Hc Hr]%andb_true_iff.
  now rewrite (IH Hr), Hc.
Qed.

Lemma trimEnd_pad (s r : string) :
  Str.forallb Char.is_ws r = true -> Str.trimEnd (s +:+ r) = Str.trimEnd s.
Proof.
  intros Hr. induction s as [|c s IH].
  - rewrite app_nil_l_str. now apply trimEnd_all_ws.
  - rewrite app_cons_str. cbn [Str.trimEnd]. now rewrite IH.
Qed.

Lemma trim_pad_r (s r : string) :
  Str.forallb Char.is_ws r = true -> Str.trim (s +:+ r) = Str.trim s.
Proof.
  intros Hr. unfold Str.trim. induction s as [|c s IH].
  - rewrite app_nil_l_str. cbn [Str.trimStart Str.trimEnd].
    destruct (trimStart_split r) as (l & Hs & _ & _).
    assert (Hall : Str.forallb Char.is_ws (Str.trimStart r) = true).
    { rewrite Hs, forallb_app_str in Hr. now apply andb_true_iff in Hr. }
    now apply trimEnd_all_ws.
  - rewrite app_cons_str. cbn [Str.trimStart].
    destruct (Char.is_ws c); [exact IH|].
    rewrite <- app_cons_str. now apply trimEnd_pad.
Qed.

Lemma trimStart_pad (l s : string) :
  Str.forallb Char.is_ws l = true -> Str.trimStart (l +:+ s) = Str.trimStart s.
Proof.
  induction l as [|c l IH]; [reflexivity|].
  rewrite app_cons_str. cbn [Str.forallb Str.trimStart].
  intros [Hc Hl]%andb_true_iff. rewrite Hc. now apply IH.
Qed.

Lemma trim_pad (l s r : string) :
  Str.forallb Char.is_ws l = true ->
  Str.forallb Char.is_ws r = true ->
  Str.trim (l +:+ s +:+ r) = Str.trim s.
Proof.
  intros Hl Hr. transitivity (Str.trim (s +:+ r)); [|now apply trim_pad_r].
  unfold Str.trim. now rewrite trimStart_pad.
Qed.

Lemma normalizeEmail_fixed (value : jsval) :
  normalizeEmail (JStr (normalizeEmail value)) = normalizeEmail value.
Proof.
  destruct value as [| | | |s| |]; try reflexivity.
  cbn [normalizeEmail]. now rewrite trim_lower, trim_trim, toLowerCase_lower.
Qed.

(** [normalizeEmail] is the lowercased [normalizeString]; applied to its
    own answer it changes nothing, so every key is its own key. *)
Theorem normalizeEmail_is_lowercased_normalizeString (value : jsval) :
  normalizeEmail value = Str.toLowerCase (normalizeString value)
  /\ normalizeEmail (JStr (normalizeEmail value)) = normalizeEmail value
  /\ normalizeString (JStr (normalizeEmail value)) = normalizeEmail value.
Proof.
  split; [now destruct value|]. split; [apply normalizeEmail_fixed|].
  destruct value as [| | | |s| |]; try reflexivity.
  cbn [normalizeEmail normalizeString]. now rewrite trim_lower, trim_trim.
Qed.

(** The comparison key ignores whitespace around an address and its
    casing: padding a string with whitespace, or lowercasing it, leaves
    its key unchanged. *)
Theorem normalizeEmail_ignores_padding_and_case (l s r : string) :
  Str.forallb Char.is_ws l = true ->
  Str.forallb Char.is_ws r = true ->
  normalizeEmail (JStr (l +:+ s +:+ r)) = normalizeEmail (JStr s)
  /\ normalizeEmail (JStr (l +:+ Str.toLowerCase s +:+ r))
     = normalizeEmail (JStr s).
Proof.
  intros Hl Hr. cbn [normalizeEmail]. rewrite !trim_pad by assumption.
  split; [reflexivity|]. now rewrite trim_lower, toLowerCase_lower.
Qed.

Lemma normalizeEmail_ignores_padding_and_case_witness :
  normalizeEmail (JStr ("  " +:+ "Ops@Example.COM" +:+ nl))
  = normalizeEmail (JStr "Ops@Example.COM").
Proof.
  exact (proj1 (normalizeEmail_ignores_padding_and_case
                  "  " "Ops@Example.COM" nl eq_refl eq_refl)).
Defined.

(** ** Escaping: structure *)

Lemma html_entity_cases (c : ascii) :
  (c = "&"%char /\ html_entity c = "&amp;"%string)
  \/ (c = "<"%char /\ html_entity c = "&lt;"%string)
  \/ (c = ">"%char /\ html_entity c = "&gt;"%string)
  \/ (c = Char.dquote /\ html_entity c = "&quot;"%string)
  \/ (c = "'"%char /\ html_entity c = "&#39;"%string)
  \/ (needs_escape c = false /\ html_entity c = String c EmptyString).
Proof.
  unfold html_entity, needs_escape, is_markup_char.
  destruct (Ascii.eqb c "&") eqn:E1;
    [apply Ascii.eqb_eq in E1; now left|].
  destruct (Ascii.eqb c "<") eqn:E2;
    [apply Ascii.eqb_eq in E2; right; now left|].
  destruct (Ascii.eqb c ">") eqn:E3;
    [apply Ascii.eqb_eq in E3; do 2 right; now left|].
  destruct (Ascii.eqb c Char.dquote) eqn:E4;
    [apply Ascii.eqb_eq in E4; do 3 right; now left|].
  destruct (Ascii.eqb c "'") eqn:E5;
    [apply Ascii.eqb_eq in E5; do 4 right; now left|].
  do 5 right. now split.
Qed.

Lemma needs_escape_amp (c : ascii) : needs_escape c = false -> c <> "&"%char.
Proof. intros H ->. discriminate. Qed.

Lemma html_entity_length (c : ascii) :
  (1 <= String.length (html_entity c))%nat
  /\ (needs_escape c = true -> 1 < String.length (html_entity c))%nat.
Proof.
  destruct (html_entity_cases c) as [[-> ->]|[[-> ->]|[[-> ->]|[[-> ->]|[[-> ->]|[Hn ->]]]]]];
    cbn; rewrite ?Hn; repeat split; try lia; try discriminate.
Qed.

Lemma escape_entities_length (s : string) :
  (String.length s <= String.length (escape_entities s))%nat
  /\ (Str.forallb (fun c => negb (needs_escape c)) s = false ->
      String.length s < String.length (escape_entities s))%nat.
Proof.
  induction s as [|c s [IH1 IH2]]; [split; [reflexivity | discriminate]|].
  cbn [escape_entities Str.forallb String.length].
  rewrite length_app_str.
  destruct (html_entity_length c) as (H1 & H2).
  split; [lia|].
  destruct (needs_escape c) eqn:Hc; cbn [negb andb].
  - intros _. specialize (H2 eq_refl). lia.
  - intros H. specialize (IH2 H). lia.
Qed.

Lemma escape_entities_plain (s : string) :
  Str.forallb (fun c => negb (needs_escape c)) s = true ->
  escape_entities s = s.
Proof.
  induction s as [|c s IH]; [reflexivity|].
  cbn [Str.forallb escape_entities]. intros [Hc Hs]%andb_true_iff.
  apply negb_true_iff in Hc.
  destruct (html_entity_cases c) as [[-> _]|[[-> _]|[[-> _]|[[-> _]|[[-> _]|[_ ->]]]]]];
    try discriminate.
  now rewrite IH.
Qed.

(** [escapeHtml] distributes over concatenation, never shortens its
    input, and leaves a string unchanged exactly when the string holds
    none of the five characters it replaces. *)
Theorem escapeHtml_concat_and_plain (a b : string) :
  escapeHtml (a +:+ b) = escapeHtml a +:+ escapeHtml b
  /\ (String.length a <= String.length (escapeHtml a))%nat
  /\ (escapeHtml a = a
      <-> Str.forallb (fun c => negb (needs_escape c)) a = true).
Proof.
  rewrite !escapeHtml_entities.
  split; [apply escape_entities_app|].
  split; [apply escape_entities_length|].
  split.
  - intros Heq.
    destruct (Str.forallb (fun c => negb (needs_escape c)) a) eqn:Hp;
      [reflexivity|].
    apply escape_entities_length in Hp. rewrite Heq in Hp. lia.
  - apply escape_entities_plain.
Qed.

Lemma html_entity_inj (x y : ascii) (u v : string) :
  html_entity x +:+ u = html_entity y +:+ v -> x = y /\ u = v.
Proof.
  destruct (html_entity_cases x)
    as [[-> ->]|[[-> ->]|[[-> ->]|[[-> ->]|[[-> ->]|[Hx ->]]]]]];
  destruct (html_entity_cases y)
    as [[-> ->]|[[-> ->]|[[-> ->]|[[-> ->]|[[-> ->]|[Hy ->]]]]]];
  rewrite ?app_cons_str, ?app_nil_l_str; intros H;
  try apply needs_escape_amp in Hx; try apply needs_escape_amp in Hy;
  try (injection H; intros; subst; now split);
  try discriminate;
  injection H; intros; congruence.
Qed.

Lemma escape_entities_nil (s : string) :
  escape_entities s = EmptyString -> s = EmptyString.
Proof.
  destruct s as [|c s]; [reflexivity|]. cbn [escape_entities]. intros H.
  apply (f_equal String.length) in H. rewrite length_app_str in H.
  destruct (html_entity_length c) as (H1 & _). cbn in H. lia.
Qed.

(** [escapeHtml] loses nothing: two strings with the same escaped form
    are the same string. *)
Theorem escapeHtml_injective (a b : string) :
  escapeHtml a = escapeHtml b -> a = b.
Proof.
  rewrite !escapeHtml_entities. revert b.
  induction a as [|x a IH]; intros [|y b] H.
  - reflexivity.
  - symmetry in H. now apply escape_entities_nil in H.
  - now apply escape_entities_nil in H.
  - cbn [escape_entities] in H. apply html_entity_inj in H as [-> H].
    now rewrite (IH b H).
Qed.

Lemma escapeHtml_injective_witness :
  ("a<b" : string) = "a<b"%string.
Proof. exact (escapeHtml_injective "a<b" "a<b" eq_refl). Defined.

(** ** Parsing recipient settings *)

Lemma split_go_run (sep : ascii -> bool) (s : string) :
  filter (fun e => Is_true (Str.nonempty e)) (Str.split_go sep true EmptyString s)
  = filter (fun e => Is_true (Str.nonempty e)) (Str.split_go sep false EmptyString s).
Proof.
  destruct s as [|c s]; [reflexivity|].
  cbn [Str.split_go]. destruct (sep c); [|reflexivity].
  now rewrite filter_cons_False by (cbn; tauto).
Qed.

Lemma split_go_app (sep : ascii -> bool) (c : ascii) (b a : string) :
  sep c = true ->
  forall in_run cur,
    (in_run = true -> cur = EmptyString) ->
    filter (fun e => Is_true (Str.nonempty e))
      (Str.split_go sep in_run cur (a +:+ String c b))
    = filter (fun e => Is_true (Str.nonempty e)) (Str.split_go sep in_run cur a)
      ++ filter (fun e => Is_true (Str.nonempty e))
           (Str.split_go sep false EmptyString b).
Proof.
  intros Hc. induction a as [|x a IH]; intros in_run cur Hinv.
  - rewrite app_nil_l_str. cbn [Str.split_go]. rewrite Hc.
    destruct in_run.
    + rewrite (Hinv eq_refl).
      rewrite (filter_cons_False _ (String.rev EmptyString)) by (cbn; tauto).
      rewrite filter_nil. apply split_go_run.
    + rewrite !filter_cons, filter_nil, split_go_run.
      destruct (decide _); reflexivity.
  - rewrite app_cons_str. cbn [Str.split_go]. destruct (sep x).
    + destruct in_run.
      * now apply IH.
      * rewrite !filter_cons. rewrite IH by reflexivity.
        destruct (decide _); reflexivity.
    + apply IH. discriminate.
Qed.

Lemma written_app (c : ascii) (a b : string) :
  is_separator c = true ->
  addresses_as_written (Some (a +:+ String c b))
  = addresses_as_written (Some a) ++ addresses_as_written (Some b).
Proof.
  intros Hc. unfold addresses_as_written, Str.split.
  now apply split_go_app.
Qed.

Lemma split_go_separators (s : string) :
  Str.forallb is_separator s = true ->
  forall in_run,
    filter (fun e => Is_true (Str.nonempty e))
      (Str.split_go is_separator in_run EmptyString s) = [].
Proof.
  induction s as [|c s IH]; intros Hs in_run; [reflexivity|].
  cbn [Str.forallb] in Hs. apply andb_true_iff in Hs as [Hc Hs].
  cbn [Str.split_go]. rewrite Hc. destruct in_run; [now apply IH|].
  rewrite filter_cons_False by (cbn; tauto). now apply IH.
Qed.

(** Two settings joined by a separator character parse to the addresses
    of the first followed by the addresses of the second. *)
Theorem parseRecipientList_joined (c : ascii) (a b : string) :
  is_separator c = true ->
  parseRecipientList (Text (a +:+ String c b))
  = parseRecipientList (Text a) ++ parseRecipientList (Text b).
Proof.
  intros Hc.
  change (Text (a +:+ String c b)) with (setting_of (Some (a +:+ String c b))).
  change (Text a) with (setting_of (Some a)).
  change (Text b) with (setting_of (Some b)).
  rewrite !parseRecipientList_lowercases, written_app by exact Hc.
  apply fmap_app.
Qed.

Lemma parseRecipientList_joined_witness :
  parseRecipientList (Text "A@x.io; b@y.io,c@z.io")
  = parseRecipientList (Text "A@x.io; b@y.io") ++ parseRecipientList (Text "c@z.io").
Proof.
  exact (parseRecipientList_joined "," "A@x.io; b@y.io" "c@z.io" eq_refl).
Defined.

(** A setting made of separators only (commas, semicolons, whitespace)
    yields no address, like an unset or empty setting. *)
Theorem parseRecipientList_separators_only (s : string) :
  Str.forallb is_separator s = true ->
  parseRecipientList (Text s) = [].
Proof.
  intros Hs. change (Text s) with (setting_of (Some s)).
  rewrite parseRecipientList_lowercases.
  unfold addresses_as_written, Str.split.
  now rewrite split_go_separators.
Qed.

Lemma parseRecipientList_separators_only_witness :
  parseRecipientList (Text " ,; , ") = [].
Proof. exact (parseRecipientList_separators_only " ,; , " eq_refl). Defined.

(** Every address [parseRecipientList] returns, from a string or from an
    array, is non-empty and already normalized: it is its own comparison
    key. *)
Theorem parseRecipientList_normalized (value : setting) (a : string) :
  a ∈ parseRecipientList value ->
  Str.nonempty a = true /\ normalizeEmail (JStr a) = a.
Proof.
  assert (Hgen : forall xs : list jsval,
            a ∈ filter (fun e => Is_true (Str.nonempty e)) (normalizeEmail <$> xs) ->
            Str.nonempty a = true /\ normalizeEmail (JStr a) = a).
  { intros xs [Hne (x & -> & _)%list_elem_of_fmap]%list_elem_of_filter.
    split; [now apply Is_true_true | apply normalizeEmail_fixed]. }
  destruct value as [|s|xs]; cbn [parseRecipientList].
  - intros H. inversion H.
  - destruct s as [|c s]; [intros H; inversion H|].
    rewrite (list_fmap_compose JStr normalizeEmail). apply Hgen.
  - apply Hgen.
Qed.

Lemma parseRecipientList_normalized_witness :
  Str.nonempty "b@c.d" = true /\ normalizeEmail (JStr "b@c.d") = "b@c.d"%string.
Proof.
  apply (parseRecipientList_normalized
           (Items [JNum (Int 3); JStr "  B@c.D "; JStr "   "]) "b@c.d").
  apply list_elem_of_In. vm_compute. now left.
Defined.

(** ** Deduplication: composition *)

Lemma filter_ext_in {A} (P Q : A -> Prop) `{forall x, Decision (P x)}
    `{forall x, Decision (Q x)} (l : list A) :
  (forall x, x ∈ l -> P x <-> Q x) -> filter P l = filter Q l.
Proof.
  induction l as [|x l IH]; intros Hl; [reflexivity|].
  rewrite !filter_cons.
  rewrite IH by (intros y Hy; apply Hl; now right).
  pose proof (Hl x (list_elem_of_here _ _)) as Hx.
  destruct (decide (P x)), (decide (Q x)); try reflexivity; tauto.
Qed.

Lemma keep_unseen_app (xs ys : list jsval) (seen : gset string) :
  keep_unseen seen (xs ++ ys)
  = keep_unseen seen xs
    ++ filter (fun e => normalizeEmail e ∉ normalizeEmail <$> xs)
         (keep_unseen seen ys).
Proof.
  revert seen. induction xs as [|x xs IH]; intros seen.
  - cbn [app keep_unseen fmap list_fmap]. symmetry. apply filter_all.
    intros e _ Hin. inversion Hin.
  - rewrite <- app_comm_cons. cbn [keep_unseen]. rewrite fmap_cons.
    destruct (Str.is_empty (normalizeEmail x)) eqn:Hk; cbn [orb].
    { rewrite IH. f_equal. apply filter_ext_in. intros e He.
      apply keep_unseen_keys in He as [He _].
      rewrite not_elem_of_cons.
      split; [intros Hn; split; [congruence | exact Hn] | tauto]. }
    destruct (bool_decide (normalizeEmail x ∈ seen)) eqn:Hs.
    { apply bool_decide_eq_true in Hs.
      rewrite IH. f_equal. apply filter_ext_in. intros e He.
      apply keep_unseen_keys in He as [_ He].
      rewrite not_elem_of_cons.
      split; [intros Hn; split; [congruence | exact Hn] | tauto]. }
    rewrite <- app_comm_cons. f_equal.
    rewrite IH, (keep_unseen_insert _ ys), list_filter_filter. f_equal.
    apply filter_ext_in. intros e _. rewrite not_elem_of_cons. tauto.
Qed.

(** Deduplicating a concatenation: the deduplicated first list, followed
    by the deduplicated second list without the elements whose key
    already occurs in the first. *)
Theorem dedupeEmails_app (xs ys : list jsval) :
  dedupeEmails (xs ++ ys)
  = dedupeEmails xs
    ++ filter (fun e => normalizeEmail e ∉ normalizeEmail <$> xs)
         (dedupeEmails ys).
Proof. rewrite !dedupeEmails_keep_unseen. apply keep_unseen_app. Qed.

Lemma keep_unseen_blank (seen : gset string) (xs : list jsval) :
  (forall e, e ∈ xs -> normalizeEmail e = EmptyString) ->
  keep_unseen seen xs = [].
Proof.
  induction xs as [|x xs IH]; intros Hxs; [reflexivity|].
  cbn [keep_unseen]. rewrite (Hxs x) by left. cbn.
  apply IH. intros e He. apply Hxs. now right.
Qed.

(** [dedupeEmails] answers the empty list exactly when no input element
    has a non-empty key, that is when every element is a blank string or
    not a string at all. *)
Theorem dedupeEmails_empty (xs : list jsval) :
  dedupeEmails xs = [] <-> forall e, e ∈ xs -> normalizeEmail e = EmptyString.
Proof.
  rewrite dedupeEmails_keep_unseen. split.
  - intros Hnil e He.
    destruct (Str.is_empty (normalizeEmail e)) eqn:Hk;
      [now destruct (normalizeEmail e)|].
    assert (Hnone : find (has_key (normalizeEmail e)) xs = None).
    { rewrite <- (keep_unseen_find ∅ xs _ Hk) by set_solver.
      now rewrite Hnil. }
    apply list_elem_of_In in He.
    apply (find_none _ _ Hnone) in He. unfold has_key in He.
    now rewrite String.eqb_refl in He.
  - apply keep_unseen_blank.
Qed.

(** ** Recipient resolution: the fallback sources *)

(** The resolver, path by path. *)
Lemma resolve_cases (w : world) (t : trace) :
  resolveContactRecipients w t =
    if negb (is_nil (envRecipients w)) then
      (Returned (envRecipients w), t ++ env_reads)
    else
      match listTeamMemberEmails w with
      | Thrown e => (Thrown e, t ++ directory_reads)
      | Returned members =>
          if negb (is_nil (dedupeEmails members)) then
            (Returned (dedupeEmails members), t ++ directory_reads)
          else if truthy (env_value (env w "MAIL_FROM")) then
            (Returned
               (let smtpUser := normalizeEmail (env_value (env w "MAIL_FROM")) in
                if Str.nonempty smtpUser then [JStr smtpUser] else []),
             t ++ directory_reads ++ [EnvRead "MAIL_FROM"])
          else
            (Returned
               (let smtpUser := normalizeEmail (env_value (env w "SMTP_USER")) in
                if Str.nonempty smtpUser then [JStr smtpUser] else []),
             t ++ directory_reads ++ [EnvRead "MAIL_FROM"; EnvRead "SMTP_USER"])
      end.
Proof.
  cbv [resolveContactRecipients read_env bind emit ret lift].
  fold (envCandidateValues w). fold (envRecipients w).
  unfold directory_reads, env_reads.
  destruct (is_nil (envRecipients w)); cbn [negb].
  2:{ now rewrite <- !app_assoc. }
  destruct (listTeamMemberEmails w) as [members|e].
  2:{ now rewrite <- !app_assoc. }
  destruct (is_nil (dedupeEmails members)); cbn [negb].
  2:{ now rewrite <- !app_assoc. }
  destruct (truthy (env_value (env w "MAIL_FROM")));
    now rewrite <- !app_assoc.
Qed.

(** When the environment settings yield no address and the team
    directory lists at least one usable address, the resolver returns the
    deduplicated directory list, each address as the directory wrote it
    (casing and padding untouched), and never reads the from-address
    settings. *)
Theorem resolve_from_directory (w : world) (t : trace) (members : list jsval) :
  envRecipients w = [] ->
  listTeamMemberEmails w = Returned members ->
  dedupeEmails members <> [] ->
  resolveContactRecipients w t
  = (Returned (dedupeEmails members), t ++ directory_reads)
  /\ sublist (dedupeEmails members) members
  /\ (EnvRead "MAIL_FROM" ∉ directory_reads)
  /\ (EnvRead "SMTP_USER" ∉ directory_reads).
Proof.
  intros Henv Hdir Hne. rewrite resolve_cases, Henv, Hdir.
  apply is_nil_false in Hne. rewrite Hne. cbn [is_nil negb].
  split; [reflexivity|].
  split; [rewrite dedupeEmails_keep_unseen; apply keep_unseen_sublist|].
  split; intros Hin; apply list_elem_of_In in Hin; cbn in Hin;
    intuition discriminate.
Qed.

Lemma resolve_from_directory_witness :
  resolveContactRecipients world_team_directory []
  = (Returned [JStr " Ann@Team.io "; JStr "Bob@team.io"], directory_reads).
Proof.
  refine (proj1 (resolve_from_directory world_team_directory []
                   [JStr " Ann@Team.io "; JNum (Int 1); JStr "ann@team.io";
                    JStr "Bob@team.io"] _ _ _));
    [reflexivity | reflexivity | vm_compute; discriminate].
Defined.

(** When neither the environment settings nor the team directory yield
    an address, a non-empty [MAIL_FROM] alone decides the result: its
    trimmed, lowercased value if that is not blank, no recipient at all
    if it is, and [SMTP_USER] is not read in either case. *)
Theorem resolve_from_mail_from (w : world) (t : trace)
    (members : list jsval) (from : string) :
  envRecipients w = [] ->
  listTeamMemberEmails w = Returned members ->
  dedupeEmails members = [] ->
  env w "MAIL_FROM" = Some from ->
  from <> EmptyString ->
  resolveContactRecipients w t
  = (Returned (if Str.nonempty (Str.trim from)
               then [JStr (Str.toLowerCase (Str.trim from))] else []),
     t ++ directory_reads ++ [EnvRead "MAIL_FROM"]).
Proof.
  intros Henv Hdir Hnil Hfrom Hne.
  rewrite resolve_cases, Henv, Hdir, Hnil, Hfrom. cbn [is_nil negb env_value].
  destruct from as [|c from]; [congruence|].
  cbn [truthy Str.nonempty Str.is_empty negb normalizeEmail].
  unfold Str.nonempty. now rewrite toLowerCase_is_empty.
Qed.

Lemma resolve_from_mail_from_witness :
  resolveContactRecipients world_blank_mail_from []
  = (Returned [], directory_reads ++ [EnvRead "MAIL_FROM"]).
Proof.
  refine (resolve_from_mail_from world_blank_mail_from [] [] "  " _ _ _ _ _);
    [reflexivity | reflexivity | reflexivity | reflexivity | discriminate].
Defined.

(** When neither the environment settings nor the team directory yield
    an address and [MAIL_FROM] is unset or empty, the result is the
    trimmed, lowercased [SMTP_USER], or the empty list when that is unset
    or blank. *)
Theorem resolve_from_smtp_user (w : world) (t : trace) (members : list jsval) :
  envRecipients w = [] ->
  listTeamMemberEmails w = Returned members ->
  dedupeEmails members = [] ->
  env w "MAIL_FROM" = None \/ env w "MAIL_FROM" = Some EmptyString ->
  resolveContactRecipients w t
  = (Returned
       (match env w "SMTP_USER" with
        | Some user =>
            if Str.nonempty (Str.trim user)
            then [JStr (Str.toLowerCase (Str.trim user))] else []
        | None => []
        end),
     t ++ directory_reads ++ [EnvRead "MAIL_FROM"; EnvRead "SMTP_USER"]).
Proof.
  intros Henv Hdir Hnil Hfrom.
  rewrite resolve_cases, Henv, Hdir, Hnil. cbn [is_nil negb].
  assert (Hf : truthy (env_value (env w "MAIL_FROM")) = false)
    by (destruct Hfrom as [-> | ->]; reflexivity).
  rewrite Hf. destruct (env w "SMTP_USER") as [user|]; [|reflexivity].
  cbn [env_value normalizeEmail]. unfold Str.nonempty.
  now rewrite toLowerCase_is_empty.
Qed.

Lemma resolve_from_smtp_user_witness :
  resolveContactRecipients world_smtp_user []
  = (Returned [JStr "ops@x.io"],
     directory_reads ++ [EnvRead "MAIL_FROM"; EnvRead "SMTP_USER"]).
Proof.
  refine (resolve_from_smtp_user world_smtp_user [] [JStr "  "; JNull] _ _ _ _);
    [reflexivity | reflexivity | reflexivity | now left].
Defined.

Lemma dedupe_strings (values : list jsval) (e : jsval) :
  e ∈ dedupeEmails values ->
  exists s, e = JStr s /\ Str.nonempty (normalizeEmail e) = true.
Proof.
  rewrite dedupeEmails_keep_unseen. intros [Hk _]%keep_unseen_keys.
  destruct e as [| | | |s| |]; try discriminate.
  exists s. split; [reflexivity|]. unfold Str.nonempty. now rewrite Hk.
Qed.

Lemma single_key (v e : jsval) :
  e ∈ (if Str.nonempty (normalizeEmail v)
       then [JStr (normalizeEmail v)] else []) ->
  exists a, e = JStr a /\ Str.nonempty (normalizeEmail e) = true.
Proof.
  destruct (Str.nonempty (normalizeEmail v)) eqn:Hn;
    [|intros H; inversion H].
  intros ->%list_elem_of_singleton. eexists. split; [reflexivity|].
  now rewrite normalizeEmail_fixed.
Qed.

Lemma single_NoDup (v : jsval) :
  NoDup (normalizeEmail <$>
           (if Str.nonempty (normalizeEmail v) then [JStr (normalizeEmail v)]
            else [])).
Proof.
  destruct (Str.nonempty (normalizeEmail v)); cbn; [|constructor].
  apply NoDup_singleton.
Qed.

(** Whichever source answers, the list the resolver returns holds only
    strings, none of them blank, and no two of them with the same
    comparison key. *)
Theorem resolve_returns_distinct_addresses (w : world) (t : trace)
    (recipients : list jsval) :
  fst (resolveContactRecipients w t) = Returned recipients ->
  NoDup (normalizeEmail <$> recipients)
  /\ forall e, e ∈ recipients ->
       exists s, e = JStr s /\ Str.nonempty (normalizeEmail e) = true.
Proof.
  rewrite resolve_cases.
  destruct (is_nil (envRecipients w)); cbn [negb].
  2:{ cbn [fst]. intros [= <-]. unfold envRecipients.
      rewrite dedupeEmails_keep_unseen at 1.
      split; [apply keep_unseen_NoDup | apply dedupe_strings]. }
  destruct (listTeamMemberEmails w) as [members|e]; [|discriminate].
  destruct (is_nil (dedupeEmails members)); cbn [negb].
  2:{ cbn [fst]. intros [= <-]. rewrite dedupeEmails_keep_unseen at 1.
      split; [apply keep_unseen_NoDup | apply dedupe_strings]. }
  destruct (truthy (env_value (env w "MAIL_FROM"))); cbn [fst]; intros [= <-];
    cbv zeta; (split; [apply single_NoDup | intros e; apply single_key]).
Qed.

Lemma resolve_returns_distinct_addresses_witness :
  NoDup (normalizeEmail <$> [JStr " Ann@Team.io "; JStr "Bob@team.io"]).
Proof.
  exact (proj1 (resolve_returns_distinct_addresses world_team_directory []
                  [JStr " Ann@Team.io "; JStr "Bob@team.io"] eq_refl)).
Defined.



(** ** Handler: the phases before dispatch *)

(** Without a mail configuration the handler answers 503 with the
    configuration message whatever the request holds, and does nothing
    else: the body is not inspected, no setting is read, neither the
    team directory nor the transport is called. *)
Theorem handler_unconfigured (w : world) (event : request) (t : trace) :
  isMailConfigured w = false ->
  handler w event t
  = (Returned (error_response 503 not_configured_message),
     t ++ [CallIsMailConfigured]).
Proof.
  intros Hc. unfold handler. cbv [bind emit ret]. now rewrite Hc.
Qed.

Lemma handler_unconfigured_witness :
  handler world_unconfigured sample_request []
  = (Returned (error_response 503 not_configured_message),
     [CallIsMailConfigured]).
Proof. exact (handler_unconfigured world_unconfigured sample_request [] eq_refl). Defined.

(** A request that fails validation is answered 400 with the message of
    the first failing check, in the order unparseable body, subject,
    message, email; recipient resolution is not started and the transport
    is not called. *)
Theorem handler_validation_fails_fast (w : world) (event : request) (t : trace) :
  isMailConfigured w = true ->
  validated event = false ->
  handler w event t
  = (Returned (error_response 400 (validation_error event)),
     t ++ [CallIsMailConfigured]).
Proof.
  intros Hc Hv. unfold handler, validation_error. cbv [bind emit ret].
  rewrite Hc. cbn [negb].
  unfold validated in Hv.
  destruct (parsed_body event) as [body|]; [|reflexivity].
  cbv zeta in Hv. unfold Str.nonempty in Hv.
  destruct (Str.is_empty (normalizeString (opt_get body "subject")));
    [reflexivity|].
  destruct (Str.is_empty (normalizeString (opt_get body "message")));
    [reflexivity|].
  cbn [negb andb] in Hv.
  destruct (Str.is_empty (normalizeString (opt_get body "email")));
    [reflexivity|].
  cbn [negb andb] in Hv. rewrite Hv. reflexivity.
Qed.

Lemma handler_validation_fails_fast_witness :
  handler world_env_only request_blank_subject []
  = (Returned (error_response 400 "Subject is required"),
     [CallIsMailConfigured]).
Proof.
  exact (handler_validation_fails_fast world_env_only request_blank_subject []
           eq_refl eq_refl).
Defined.

(** ** Plausible addresses: consequences *)

Lemma length_pos_str (s : string) : s <> EmptyString -> (1 <= String.length s)%nat.
Proof. destruct s; [congruence | cbn; lia]. Qed.

(** An accepted address has, once trimmed, at least five characters and
    no whitespace anywhere; and whitespace around a string does not change
    whether it is accepted. *)
Theorem isLikelyEmail_accepts (s l r : string) :
  Str.forallb Char.is_ws l = true ->
  Str.forallb Char.is_ws r = true ->
  isLikelyEmail (JStr (l +:+ s +:+ r)) = isLikelyEmail (JStr s)
  /\ (isLikelyEmail (JStr s) = true ->
      (5 <= String.length (Str.trim s))%nat
      /\ Str.forallb (fun c => negb (Char.is_ws c)) (Str.trim s) = true).
Proof.
  intros Hl Hr. split.
  - cbn [isLikelyEmail]. now rewrite trim_pad.
  - cbn [isLikelyEmail]. destruct (Str.is_empty (Str.trim s)); [discriminate|].
    intros (a & b & c & -> & [Ha1 Ha2] & [Hb1 Hb2] & [Hc1 Hc2])
             %test_lang%email_pattern_lang.
    apply not_ws_at_split in Ha2 as [Ha2 _].
    apply not_ws_at_split in Hb2 as [Hb2 _].
    apply not_ws_at_split in Hc2 as [Hc2 _].
    split.
    + rewrite !length_app_str. cbn [String.length].
      apply length_pos_str in Ha1, Hb1, Hc1. lia.
    + rewrite !forallb_app_str, Ha2, Hb2, Hc2. reflexivity.
Qed.

Lemma isLikelyEmail_accepts_witness :
  (5 <= String.length (Str.trim "a@b.c"))%nat.
Proof.
  exact (proj1 (proj2 (isLikelyEmail_accepts "a@b.c" " " nl eq_refl eq_refl)
                  eq_refl)).
Defined.

(** ** Handler: every outcome *)

Lemma failure_status_ge (e : jsval) : number_ge (failure_status e) 400 = true.
Proof.
  unfold failure_status. destruct (opt_get e "statusCode"); try reflexivity.
  destruct (number_ge n 400) eqn:Hn; [exact Hn | reflexivity].
Qed.

Lemma send_count_app (evs tail : trace) :
  forallb (fun e => negb (is_send e)) evs = true ->
  length (filter (fun e => Is_true (is_send e)) (evs ++ tail))
  = length (filter (fun e => Is_true (is_send e)) tail).
Proof.
  intros H. rewrite filter_app, length_app.
  induction evs as [|e evs IH]; [reflexivity|].
  cbn [forallb] in H. apply andb_true_iff in H as [He Hevs].
  rewrite filter_cons_False by (apply negb_true_iff in He; rewrite He; tauto).
  now apply IH.
Qed.

(** What the handler does, outcome by outcome: an error response before
    any transport call, the directory's error thrown, or one transport
    call followed by the response for what the transport did. *)
Lemma handler_cases (w : world) (event : request) :
  exists evs,
    forallb (fun e => negb (is_send e)) evs = true
    /\ ((exists status msg,
           (status = 400 \/ status = 503)
           /\ handler w event [] = (Returned (error_response status msg), evs))
        \/ (exists e,
              listTeamMemberEmails w = Thrown e
              /\ handler w event [] = (Thrown e, evs))
        \/ (exists body recipients,
              isMailConfigured w = true
              /\ parsed_body event = Some body
              /\ validated event = true
              /\ recipients <> []
              /\ resolveContactRecipients w [CallIsMailConfigured]
                 = (Returned recipients, evs)
              /\ handler w event [] =
                   let m := dispatched_mail w body recipients in
                   match sendMail w m with
                   | Thrown e =>
                       (Returned (failure_response e),
                        evs ++ [CallSendMail m; ConsoleError send_failed_label e])
                   | Returned r =>
                       if is_nullish r then
                         (Returned (failure_response (type_error_reading r "to")),
                          evs ++ [CallSendMail m;
                                  ConsoleError send_failed_label
                                    (type_error_reading r "to")])
                       else (Returned (success_response r), evs ++ [CallSendMail m])
                   end)).
Proof.
  destruct (isMailConfigured w) eqn:Hc.
  2:{ exists [CallIsMailConfigured]. split; [reflexivity|]. left.
      exists 503, not_configured_message. split; [now right|].
      unfold handler. cbv [bind emit ret]. now rewrite Hc. }
  destruct (validated event) eqn:Hv.
  2:{ exists [CallIsMailConfigured]. split; [reflexivity|]. left.
      exists 400, (validation_error event). split; [now left|].
      unfold handler, validation_error. cbv [bind emit ret].
      rewrite Hc. cbn [negb app]. unfold validated in Hv.
      destruct (parsed_body event) as [body|]; [|reflexivity].
      cbv zeta in Hv. unfold Str.nonempty in Hv.
      destruct (Str.is_empty (normalizeString (opt_get body "subject")));
        [reflexivity|].
      destruct (Str.is_empty (normalizeString (opt_get body "message")));
        [reflexivity|].
      cbn [negb andb] in Hv.
      destruct (Str.is_empty (normalizeString (opt_get body "email")));
        [reflexivity|].
      cbn [negb andb] in Hv. now rewrite Hv. }
  destruct (parsed_body event) as [body|] eqn:Hb;
    [|unfold validated in Hv; now rewrite Hb in Hv].
  destruct (resolve_trace w [CallIsMailConfigured]) as (evs & Hr & Hevs).
  exists ([CallIsMailConfigured] ++ evs). split; [exact Hevs|].
  destruct (fst (resolveContactRecipients w [])) as [[|r0 rs]|e] eqn:Hres.
  - left. exists 503, no_recipients_message. split; [now right|].
    pose proof Hv as Hv'. enter_handler Hc. pass_validation Hb Hv'.
    cbn [app] in Hr. now rewrite Hr.
  - right; right. exists body, (r0 :: rs).
    repeat (split; [easy|]).
    now apply handler_dispatch.
  - right; left. exists e. split.
    + rewrite resolve_cases in Hres.
      destruct (is_nil (envRecipients w)); cbn [negb] in Hres; [|discriminate].
      destruct (listTeamMemberEmails w) as [members|e'].
      * destruct (is_nil (dedupeEmails members)); cbn [negb] in Hres;
          [|discriminate].
        destruct (truthy _); discriminate.
      * cbn [fst] in Hres. congruence.
    + pose proof Hv as Hv'. enter_handler Hc. pass_validation Hb Hv'.
      cbn [app] in Hr. now rewrite Hr.
Qed.

(** In one invocation the handler calls the transport at most once: it
    never retries and never sends twice. *)
Theorem handler_sends_at_most_once (w : world) (event : request) :
  (length (filter (fun e => Is_true (is_send e)) (snd (handler w event [])))
   <= 1)%nat.
Proof.
  destruct (handler_cases w event)
    as (evs & Hevs & [(status & msg & _ & ->)|[(e & _ & ->)|Hd]]).
  - cbn [snd]. rewrite <- (app_nil_r evs), send_count_app by exact Hevs.
    cbn. lia.
  - cbn [snd]. rewrite <- (app_nil_r evs), send_count_app by exact Hevs.
    cbn. lia.
  - destruct Hd as (body & recipients & _ & _ & _ & _ & _ & ->). cbv zeta.
    destruct (sendMail w _) as [r|e]; [destruct (is_nullish r)|];
      cbn [snd]; rewrite send_count_app by exact Hevs; vm_compute; lia.
Qed.

(** Every response the handler returns is either the 200 success
    response, given only after the transport accepted the one message
    handed to it, or a response with a status of at least 400 carrying an
    error text. *)
Theorem handler_responses (w : world) (event : request) (r : response) :
  fst (handler w event []) = Returned r ->
  (statusCode r = Int 200
   /\ exists m result,
        CallSendMail m ∈ snd (handler w event [])
        /\ sendMail w m = Returned result
        /\ is_nullish result = false
        /\ r = success_response result)
  \/ (number_ge (statusCode r) 400 = true
      /\ exists msg, opt_get (body r) "error" = JStr msg).
Proof.
  destruct (handler_cases w event)
    as (evs & Hevs & [(status & msg & Hs & ->)|[(e & _ & ->)|Hd]]).
  - cbn [fst]. intros [= <-]. right.
    split; [destruct Hs as [-> | ->]; reflexivity | now exists msg].
  - discriminate.
  - destruct Hd as (body & recipients & _ & _ & _ & _ & _ & ->). cbv zeta.
    destruct (sendMail w _) as [res|e] eqn:Hsend;
      [destruct (is_nullish res) eqn:Hn|]; cbn [fst snd]; intros [= <-].
    + right. split; [apply failure_status_ge | now eexists].
    + left. split; [reflexivity|].
      exists (dispatched_mail w body recipients), res.
      split; [apply elem_of_app; right; now left|].
      now repeat split.
    + right. split; [apply failure_status_ge | now eexists].
Qed.

Lemma handler_responses_witness :
  (statusCode (error_response 503 no_recipients_message) = Int 200
   /\ exists m result,
        CallSendMail m ∈ snd (handler world_no_recipients sample_request [])
        /\ sendMail world_no_recipients m = Returned result
        /\ is_nullish result = false
        /\ error_response 503 no_recipients_message = success_response result)
  \/ (number_ge (statusCode (error_response 503 no_recipients_message)) 400 = true
      /\ exists msg,
           opt_get (body (error_response 503 no_recipients_message)) "error"
           = JStr msg).
Proof.
  exact (handler_responses world_no_recipients sample_request _ eq_refl).
Defined.



(** ** Handler: dispatch *)

Lemma trim_normalizeString (value : jsval) :
  Str.trim (normalizeString value) = normalizeString value.
Proof. destruct value; try reflexivity. apply trim_trim. Qed.

(** When the transport accepts the message, the handler answers 200 with
    the recipients and message id the transport reports.  The one message
    handed to the transport goes to the resolved recipients, carries a
    subject beginning with "Website contact:", and has as reply-to the
    submitter's trimmed address, which holds no whitespace (so no line
    break). *)
Theorem handler_success (w : world) (event : request) (parsed : jsval)
    (recipients : list jsval) (evs : trace) (result : jsval) :
  isMailConfigured w = true ->
  parsed_body event = Some parsed ->
  validated event = true ->
  resolveContactRecipients w [CallIsMailConfigured] = (Returned recipients, evs) ->
  recipients <> [] ->
  sendMail w (dispatched_mail w parsed recipients) = Returned result ->
  is_nullish result = false ->
  let m := dispatched_mail w parsed recipients in
  handler w event [] = (Returned (success_response result), evs ++ [CallSendMail m])
  /\ opt_get (body (success_response result)) "sent_to"
     = opt_get result "to"
  /\ mail_to m = recipients
  /\ Str.startsWith (mail_subject m) "Website contact:" = true
  /\ mail_replyTo m = normalizeString (opt_get parsed "email")
  /\ Str.forallb (fun c => negb (Char.is_ws c)) (mail_replyTo m) = true.
Proof.
  intros Hc Hb Hv Hr Hne Hsend Hnull m.
  split.
  { rewrite (handler_dispatch w event parsed recipients evs Hc Hb Hv Hr Hne).
    cbv zeta. now rewrite Hsend, Hnull. }
  split; [reflexivity|]. split; [reflexivity|].
  split; [apply safeSubject_guarded|]. split; [reflexivity|].
  unfold m, dispatched_mail. cbn [mail_replyTo].
  unfold validated in Hv. rewrite Hb in Hv. cbv zeta in Hv.
  apply andb_true_iff in Hv as [_ Hl].
  cbn [isLikelyEmail] in Hl.
  rewrite trim_normalizeString in Hl.
  destruct (Str.is_empty _); [discriminate|].
  apply test_lang, email_pattern_lang in Hl
    as (a & b & c & -> & [_ Ha] & [_ Hb'] & [_ Hc']).
  apply not_ws_at_split in Ha as [Ha _].
  apply not_ws_at_split in Hb' as [Hb' _].
  apply not_ws_at_split in Hc' as [Hc' _].
  now rewrite !forallb_app_str, Ha, Hb', Hc'.
Qed.

Lemma handler_success_witness :
  fst (handler world_env_only sample_request [])
  = Returned (success_response
                (JObj [("to"%string, JArr [JStr "admin@example.com"])])).
Proof.
  refine (f_equal fst
            (proj1 (handler_success world_env_only sample_request sample_body
                      [JStr "admin@example.com"]
                      ([CallIsMailConfigured] ++ env_reads)
                      (JObj [("to"%string, JArr [JStr "admin@example.com"])])
                      _ _ _ _ _ _ _)));
    try reflexivity; discriminate.
Defined.

(** When the transport resolves with [undefined] or [null], the handler
    has handed the message over and still answers 500 with the
    send-failure description: reading the result's recipients fails
    inside the [try], and is reported like a transport error. *)
Theorem handler_empty_transport_result (w : world) (event : request)
    (parsed : jsval) (recipients : list jsval) (evs : trace) (result : jsval) :
  isMailConfigured w = true ->
  parsed_body event = Some parsed ->
  validated event = true ->
  resolveContactRecipients w [CallIsMailConfigured] = (Returned recipients, evs) ->
  recipients <> [] ->
  sendMail w (dispatched_mail w parsed recipients) = Returned result ->
  is_nullish result = true ->
  exists r,
    fst (handler w event []) = Returned r
    /\ statusCode r = Int 500
    /\ opt_get (body r) "error" = JStr "Failed to send contact email"
    /\ CallSendMail (dispatched_mail w parsed recipients)
       ∈ snd (handler w event []).
Proof.
  intros Hc Hb Hv Hr Hne Hsend Hnull.
  rewrite (handler_dispatch w event parsed recipients evs Hc Hb Hv Hr Hne).
  cbv zeta. rewrite Hsend, Hnull. cbn [fst snd].
  eexists. split; [reflexivity|].
  split; [now destruct result|]. split; [reflexivity|].
  apply elem_of_app. right. now left.
Qed.

Lemma handler_empty_transport_result_witness :
  exists r,
    fst (handler world_silent_transport sample_request []) = Returned r
    /\ statusCode r = Int 500.
Proof.
  destruct (handler_empty_transport_result world_silent_transport
              sample_request sample_body [JStr "x@y.com"]
              ([CallIsMailConfigured] ++ env_reads) JUndefined)
    as (r & Hr & Hs & _); try reflexivity; try discriminate.
  now exists r.
Defined.

(** ** Database-listing function *)

(** Once the client is constructed, the database-listing handler closes
    it exactly once and last on every path, and asks for the databases
    only after connecting succeeded. *)
Theorem hello_always_closes (w : Hello.world) :
  Hello.newClient w (Hello.mongo_uri w) = Returned tt ->
  snd (Hello.handler w []) = Hello.session w
  /\ exists before,
       Hello.session w = before ++ [Hello.Close]
       /\ (Hello.Close ∉ before)
       /\ (Hello.connect w <> Returned tt -> Hello.ListDatabases ∉ before).
Proof.
  intros Hnew. split.
  - unfold Hello.handler, Hello.session.
    cbv [Hello.bind Hello.call Hello.try_finally Hello.try_catch Hello.ret
         Hello.throw].
    rewrite Hnew.
    destruct (Hello.connect w) as [[]|e1];
      [destruct (Hello.listDatabases w) as [dbs|e2]|];
      try destruct (is_nullish _); destruct (Hello.close w) as [[]|e3];
      reflexivity.
  - unfold Hello.session.
    destruct (Hello.connect w) as [[]|e1]; eexists;
      (split; [rewrite app_assoc; reflexivity|]);
      split; intros H; try congruence;
      try (apply list_elem_of_In in H; cbn in H; intuition discriminate);
      intros Hin; apply list_elem_of_In in Hin; cbn in Hin;
      intuition discriminate.
Qed.

Lemma hello_always_closes_witness :
  snd (Hello.handler Hello.world_connect_fails [])
  = [Hello.NewMongoClient (Some "mongodb://db"%string); Hello.Connect;
     Hello.Close].
Proof.
  exact (proj1 (hello_always_closes Hello.world_connect_fails eq_refl)).
Defined.

(** An error of closing the client replaces whatever the handler was
    about to answer: even after a successful listing the handler throws
    the closing error instead of returning the 200 response. *)
Theorem hello_close_error_wins (w : Hello.world) (e : jsval) :
  Hello.newClient w (Hello.mongo_uri w) = Returned tt ->
  Hello.close w = Thrown e ->
  fst (Hello.handler w []) = Thrown e.
Proof.
  intros Hnew Hclose. unfold Hello.handler.
  cbv [Hello.bind Hello.call Hello.try_finally Hello.try_catch Hello.ret
       Hello.throw].
  rewrite Hnew, Hclose.
  destruct (Hello.connect w) as [[]|e1];
    [destruct (Hello.listDatabases w) as [dbs|e2]|];
    try destruct (is_nullish _); reflexivity.
Qed.

Lemma hello_close_error_wins_witness :
  fst (Hello.handler Hello.world_close_fails [])
  = Thrown (JObj [("message"%string, JStr "socket closed")]).
Proof.
  exact (hello_close_error_wins Hello.world_close_fails _ eq_refl eq_refl).
Defined.

(** With the client constructed and closed without error, the handler
    answers 200 with the listing exactly when connecting and listing both
    succeeded; otherwise it answers 500 with the message of the first
    error (and throws when that error is [null] or [undefined], whose
    message cannot be read). *)
Theorem hello_responses (w : Hello.world) :
  Hello.newClient w (Hello.mongo_uri w) = Returned tt ->
  Hello.close w = Returned tt ->
  fst (Hello.handler w []) =
    match Hello.attempt w with
    | Returned databases =>
        Returned {| statusCode := Int 200;
                    body := JObj [("databases"%string, databases)] |}
    | Thrown err =>
        if is_nullish err then Thrown (type_error_reading err "message")
        else Returned {| statusCode := Int 500;
                         body := JObj [("error"%string, opt_get err "message")] |}
    end
  /\ ((exists r, fst (Hello.handler w []) = Returned r /\ statusCode r = Int 200)
      <-> exists databases, Hello.attempt w = Returned databases).
Proof.
  intros Hnew Hclose.
  assert (Hrun : fst (Hello.handler w []) =
    match Hello.attempt w with
    | Returned databases =>
        Returned {| statusCode := Int 200;
                    body := JObj [("databases"%string, databases)] |}
    | Thrown err =>
        if is_nullish err then Thrown (type_error_reading err "message")
        else Returned {| statusCode := Int 500;
                         body := JObj [("error"%string, opt_get err "message")] |}
    end).
  { unfold Hello.handler, Hello.attempt.
    cbv [Hello.bind Hello.call Hello.try_finally Hello.try_catch Hello.ret
         Hello.throw].
    rewrite Hnew, Hclose.
    destruct (Hello.connect w) as [[]|e1];
      [destruct (Hello.listDatabases w) as [dbs|e2]|];
      try destruct (is_nullish _); reflexivity. }
  split; [exact Hrun|]. rewrite Hrun.
  destruct (Hello.attempt w) as [dbs|err].
  - split; [intros _; now exists dbs|]. intros _. eexists. split; reflexivity.
  - split; [|intros [dbs [=]]].
    destruct (is_nullish err); intros (r & [= <-] & Hs); discriminate.
Qed.

Lemma hello_responses_witness :
  fst (Hello.handler Hello.world_connect_fails [])
  = Returned {| statusCode := Int 500;
                body := JObj [("error"%string, JStr "ECONNREFUSED")] |}.
Proof.
  exact (proj1 (hello_responses Hello.world_connect_fails eq_refl eq_refl)).
Defined.

(** When constructing the client throws (it is constructed outside the
    [try]), the handler throws that error and neither connects nor
    closes. *)
Theorem hello_constructor_error_escapes (w : Hello.world) (e : jsval) :
  Hello.newClient w (Hello.mongo_uri w) = Thrown e ->
  Hello.handler w [] = (Thrown e, [Hello.NewMongoClient (Hello.mongo_uri w)]).
Proof.
  intros Hnew. unfold Hello.handler. cbv [Hello.bind Hello.call].
  now rewrite Hnew.
Qed.

Lemma hello_constructor_error_escapes_witness :
  Hello.handler Hello.world_no_uri []
  = (Thrown (JObj [("message"%string, JStr "Invalid connection string")]),
     [Hello.NewMongoClient None]).
Proof.
  exact (hello_constructor_error_escapes Hello.world_no_uri _ eq_refl).
Defined.

(** ** Text body: layout *)

(** For a non-empty message the text body is the header line, the
    timestamp line, the name line when the name is non-empty, the email
    line when the email is non-empty and then the message, joined by
    single newlines: no blank line precedes the message.  Neither body
    depends on the subject. *)
Theorem formatEmailBody_text_layout (s : submission) (other : string) :
  Str.nonempty (sub_message s) = true ->
  text (formatEmailBody s) = Str.join nl (text_lines s)
  /\ text (formatEmailBody s) <> text_with_blank_line s
  /\ formatEmailBody s
     = formatEmailBody {| sub_name := sub_name s; sub_email := sub_email s;
                          sub_subject := other; sub_message := sub_message s;
                          sub_submittedAt := sub_submittedAt s |}.
Proof.
  intros Hm. split; [now apply formatEmailBody_text|].
  split; [now apply formatEmailBody_text_never_blank_line|].
  now destruct s.
Qed.

Lemma formatEmailBody_text_layout_witness :
  text (formatEmailBody script_submission)
  = Str.join nl (text_lines script_submission).
Proof.
  exact (proj1 (formatEmailBody_text_layout script_submission "x" eq_refl)).
Defined.
